(** * leaflet-gsheets-asc.js: rows of two spreadsheets drawn as map layers

    A shallow embedding of [src/leaflet-gsheets-asc.js].  The script owns two
    callbacks, [addPolygons] and [addPoints], two global layer slots
    ([polygonLayer], [pointGroupLayer]), the hover and click handlers bound to
    every polygon feature, and the map-level click handler.  Leaflet, the
    sidebar control, jQuery and the host's [JSON.parse] are collaborators:
    they are modelled by what the script hands to them and by the part of
    their behaviour the script relies on. *)

From Stdlib Require Import ZArith QArith Ascii String List.
From stdpp Require Import gmap strings list fin_maps.

Set Warnings "-register-all".

Local Open Scope string_scope.
Local Open Scope list_scope.
Local Open Scope nat_scope.

(** ** JSON values and the host's [JSON.parse] *)

Module Json.

(** A parsed JSON text.  Numbers are kept exact (the rounding to a double is
    the host's); strings are sequences of code units, so that a [\uXXXX]
    escape has a value; the members of an object are kept in textual order. *)
Inductive json : Type :=
  | JNull
  | JBool (b : bool)
  | JNum (q : Q)
  | JStr (s : list N)
  | JArr (elements : list json)
  | JObj (members : list (list N * json)).

Definition eqc (c : ascii) (x : string) : bool :=
  match x with
  | String y EmptyString => Ascii.eqb c y
  | _ => false
  end.

Arguments eqc : simpl never.

Definition quote : ascii := "034"%char.

(** White space is space, tab, line feed and carriage return, nothing else. *)
Definition is_ws (c : ascii) : bool :=
  eqc c " " || Ascii.eqb c "009"%char || Ascii.eqb c "010"%char || Ascii.eqb c "013"%char.

Fixpoint skip_ws (s : list ascii) : list ascii :=
  match s with
  | c :: r => if is_ws c then skip_ws r else s
  | [] => []
  end.

Definition digit_val (c : ascii) : option Z :=
  let n := N_of_ascii c in
  if ((48 <=? n) && (n <=? 57))%N then Some (Z.of_N n - 48)%Z else None.

Definition hex_val (c : ascii) : option N :=
  let n := N_of_ascii c in
  if ((48 <=? n) && (n <=? 57))%N then Some (n - 48)%N
  else if ((65 <=? n) && (n <=? 70))%N then Some (n - 55)%N
  else if ((97 <=? n) && (n <=? 102))%N then Some (n - 87)%N
  else None.

(** [digits s acc k]: the longest run of decimal digits at the head of [s],
    as the number it extends [acc] to, with the count of digits read. *)
Fixpoint digits (s : list ascii) (acc : Z) (k : Z) : Z * Z * list ascii :=
  match s with
  | c :: r =>
      match digit_val c with
      | Some d => digits r (10 * acc + d)%Z (k + 1)%Z
      | None => (acc, k, s)
      end
  | [] => (acc, k, s)
  end.

(** int: [0] alone, or a non-zero digit followed by digits. *)
Definition parse_int (s : list ascii) : option (Z * list ascii) :=
  match s with
  | c :: r =>
      if eqc c "0" then Some (0%Z, r)
      else match digit_val c with
           | Some d => let '(v, _, r') := digits r d 1%Z in Some (v, r')
           | None => None
           end
  | [] => None
  end.

(** frac: nothing, or [.] and at least one digit.  Returns the mantissa
    extended by the fraction digits and how many there were. *)
Definition parse_frac (m : Z) (s : list ascii) : option (Z * Z * list ascii) :=
  match s with
  | c :: r =>
      if eqc c "." then
        let '(v, k, r') := digits r m 0%Z in
        if (k =? 0)%Z then None else Some (v, k, r')
      else Some (m, 0%Z, s)
  | [] => Some (m, 0%Z, s)
  end.

Definition parse_exp_digits (neg : bool) (s : list ascii) : option (Z * list ascii) :=
  let '(v, k, r) := digits s 0%Z 0%Z in
  if (k =? 0)%Z then None else Some (if neg then (- v)%Z else v, r).

(** exp: nothing, or [e] or [E], an optional sign and at least one digit. *)
Definition parse_exp (s : list ascii) : option (Z * list ascii) :=
  match s with
  | c :: r =>
      if eqc c "e" || eqc c "E" then
        match r with
        | c' :: r' =>
            if eqc c' "+" then parse_exp_digits false r'
            else if eqc c' "-" then parse_exp_digits true r'
            else parse_exp_digits false r
        | [] => None
        end
      else Some (0%Z, s)
  | [] => Some (0%Z, s)
  end.

Definition decimal (m e : Z) : Q := Qred (inject_Z m * Qpower (10 # 1) e).

Definition parse_unsigned (neg : bool) (s : list ascii) : option (json * list ascii) :=
  match parse_int s with
  | None => None
  | Some (i, s2) =>
      match parse_frac i s2 with
      | None => None
      | Some (m, k, s3) =>
          match parse_exp s3 with
          | None => None
          | Some (e, s4) => Some (JNum (decimal (if neg then - m else m) (e - k)), s4)
          end
      end
  end.

Definition parse_number (s : list ascii) : option (json * list ascii) :=
  match s with
  | c :: r => if eqc c "-" then parse_unsigned true r else parse_unsigned false s
  | [] => None
  end.

(** The code unit of a one-letter escape. *)
Definition escape (e : ascii) : option N :=
  if Ascii.eqb e quote then Some 34%N
  else if eqc e "\" then Some 92%N
  else if eqc e "/" then Some 47%N
  else if eqc e "b" then Some 8%N
  else if eqc e "f" then Some 12%N
  else if eqc e "n" then Some 10%N
  else if eqc e "r" then Some 13%N
  else if eqc e "t" then Some 9%N
  else None.

Definition hex4 (a b c d : ascii) : option N :=
  match hex_val a, hex_val b, hex_val c, hex_val d with
  | Some a, Some b, Some c, Some d => Some (((a * 16 + b) * 16 + c) * 16 + d)%N
  | _, _, _, _ => None
  end.

(** The characters of a string after its opening quote, up to and without
    the closing one.  A control character or an unknown escape is an error. *)
Fixpoint parse_chars (s : list ascii) (acc : list N) : option (list N * list ascii) :=
  match s with
  | [] => None
  | c :: r =>
      if Ascii.eqb c quote then Some (acc, r)
      else if eqc c "\" then
        match r with
        | [] => None
        | e :: r' =>
            if eqc e "u" then
              match r' with
              | h1 :: h2 :: h3 :: h4 :: r'' =>
                  match hex4 h1 h2 h3 h4 with
                  | Some u => parse_chars r'' (acc ++ [u])
                  | None => None
                  end
              | _ => None
              end
            else
              match escape e with
              | Some u => parse_chars r' (acc ++ [u])
              | None => None
              end
        end
      else if (N_of_ascii c <? 32)%N then None
      else parse_chars r (acc ++ [N_of_ascii c])
  end.

Definition literal (lit : string) (v : json) (s : list ascii) : option (json * list ascii) :=
  let l := list_ascii_of_string lit in
  if decide (take (length l) s = l) then Some (v, drop (length l) s) else None.

(** value, elements and members of the JSON grammar by recursive descent.
    [fuel] bounds the number of nested calls. *)
Fixpoint parse_value (fuel : nat) (s : list ascii) : option (json * list ascii) :=
  match fuel with
  | O => None
  | S fuel =>
      match skip_ws s with
      | [] => None
      | c :: r =>
          if eqc c "[" then
            match skip_ws r with
            | [] => None
            | c' :: r' =>
                if eqc c' "]" then Some (JArr [], r') else parse_elements fuel r []
            end
          else if eqc c "{" then
            match skip_ws r with
            | [] => None
            | c' :: r' =>
                if eqc c' "}" then Some (JObj [], r') else parse_members fuel r []
            end
          else if Ascii.eqb c quote then
            match parse_chars r [] with
            | Some (cs, r') => Some (JStr cs, r')
            | None => None
            end
          else if eqc c "t" then literal "true" (JBool true) (c :: r)
          else if eqc c "f" then literal "false" (JBool false) (c :: r)
          else if eqc c "n" then literal "null" JNull (c :: r)
          else parse_number (c :: r)
      end
  end
with parse_elements (fuel : nat) (s : list ascii) (acc : list json)
       : option (json * list ascii) :=
  match fuel with
  | O => None
  | S fuel =>
      match parse_value fuel s with
      | None => None
      | Some (v, r) =>
          match skip_ws r with
          | [] => None
          | c :: r' =>
              if eqc c "," then parse_elements fuel r' (acc ++ [v])
              else if eqc c "]" then Some (JArr (acc ++ [v]), r')
              else None
          end
      end
  end
with parse_members (fuel : nat) (s : list ascii) (acc : list (list N * json))
       : option (json * list ascii) :=
  match fuel with
  | O => None
  | S fuel =>
      match skip_ws s with
      | [] => None
      | q :: r =>
          if Ascii.eqb q quote then
            match parse_chars r [] with
            | None => None
            | Some (k, r1) =>
                match skip_ws r1 with
                | [] => None
                | c :: r2 =>
                    if eqc c ":" then
                      match parse_value fuel r2 with
                      | None => None
                      | Some (v, r3) =>
                          match skip_ws r3 with
                          | [] => None
                          | c' :: r4 =>
                              if eqc c' "," then parse_members fuel r4 (acc ++ [(k, v)])
                              else if eqc c' "}" then Some (JObj (acc ++ [(k, v)]), r4)
                              else None
                          end
                      end
                    else None
                end
            end
          else None
      end
  end.

(** [JSON.parse(text)]: one value, surrounded by white space only.  [None]
    stands for the [SyntaxError] the host throws. *)
Definition JSON_parse (text : string) : option json :=
  let s := list_ascii_of_string text in
  match parse_value (2 * length s + 2) s with
  | Some (v, r) => match skip_ws r with [] => Some v | _ => None end
  | None => None
  end.

End Json.
Export Json.


(** ** Values of the script *)

(** A row as Tabletop hands it over: an object from column names to strings.
    Reading a column the row does not have gives [undefined], here [None]. *)
Abbreviation Row := (gmap string string).
Abbreviation value := (option string).
Abbreviation undefined := (@None string) (only parsing).

(** [x == s] for a string [s].  A row holds strings only, so the one coercion
    [==] could meet is that of [undefined], which equals no string; two
    strings are compared character by character. *)
Definition loose_eq (x : value) (s : string) : bool :=
  match x with
  | Some t => String.eqb t s
  | None => false
  end.

(** The string a value turns into under [+] with a string. *)
Definition ToString (x : value) : string :=
  match x with
  | Some t => t
  | None => "undefined"
  end.

Record Geometry := {
  g_type : value;
  g_coordinates : json }.

Record Properties := {
  p_Title : value;
  p_type : value;
  p_file_num : value;
  p_myinfo : value }.

Record Feature := {
  f_type : string;
  f_geometry : Geometry;
  f_properties : Properties }.

Record FeatureCollection := {
  fc_type : string;
  fc_features : list Feature }.

Inductive styleval :=
  | SStr (s : string)
  | SNum (n : Z).

(** The options of [L.AwesomeMarkers.icon]. *)
Record Icon := {
  icon : value;
  iconColor : string;
  markerColor : value;
  prefix : string;
  extraClasses : string }.

Record Marker := {
  m_latlng : value * value;
  m_popup : option string;
  m_icon : option Icon }.

(** The layer [L.geoJSON] makes for one feature, with the path options the
    script sets on it. *)
Record PathLayer := {
  feature : Feature;
  options : gmap string styleval }.

Inductive layer :=
  | TileLayer
  | Boundary
  | GeoJSON (children : list PathLayer)
  | LayerGroup (markers : list Marker).

Abbreviation handle := nat.

(** Everything the script can change: Leaflet's layer objects, the layers
    the map shows, the two global slots, and the side panel. *)
Record World := {
  lastId : handle;
  heap : gmap handle layer;
  on_map : gset handle;
  polygonLayer : option handle;
  pointGroupLayer : option handle;
  panel_open : option string;
  sidebar_title : string;
  sidebar_content : string }.

(** What can be thrown inside a callback: the [SyntaxError] of [JSON.parse]
    on a text, and the [Error] Leaflet throws on a position or a geometry it
    cannot use. *)
Inductive exn :=
  | SyntaxError (text : string)
  | LeafletError.

Inductive completion (A : Type) :=
  | Normal (a : A)
  | Throw (e : exn).
Arguments Normal {A} a.
Arguments Throw {A} e.

(** Statements: a state transformer that completes normally or throws.  What
    was written before a throw stays written. *)
Definition M (A : Type) : Type := World → completion A * World.

#[export] Instance M_ret : MRet M := λ A a w, (Normal a, w).
#[export] Instance M_bind : MBind M := λ A B f m w,
  match m w with
  | (Normal a, w') => f a w'
  | (Throw e, w') => (Throw e, w')
  end.

Definition get {A} (f : World → A) : M A := λ w, (Normal (f w), w).
Definition modify (f : World → World) : M unit := λ w, (Normal tt, f w).
Definition throw {A} (e : exn) : M A := λ w, (Throw e, w).
Definition lift {A} (c : completion A) : M A := λ w, (c, w).

Definition set_heap (f : gmap handle layer → gmap handle layer) (w : World) : World :=
  {| lastId := lastId w; heap := f (heap w); on_map := on_map w;
     polygonLayer := polygonLayer w; pointGroupLayer := pointGroupLayer w;
     panel_open := panel_open w; sidebar_title := sidebar_title w;
     sidebar_content := sidebar_content w |}.

Definition set_on_map (f : gset handle → gset handle) (w : World) : World :=
  {| lastId := lastId w; heap := heap w; on_map := f (on_map w);
     polygonLayer := polygonLayer w; pointGroupLayer := pointGroupLayer w;
     panel_open := panel_open w; sidebar_title := sidebar_title w;
     sidebar_content := sidebar_content w |}.

Definition set_polygonLayer (h : option handle) (w : World) : World :=
  {| lastId := lastId w; heap := heap w; on_map := on_map w;
     polygonLayer := h; pointGroupLayer := pointGroupLayer w;
     panel_open := panel_open w; sidebar_title := sidebar_title w;
     sidebar_content := sidebar_content w |}.

Definition set_pointGroupLayer (h : option handle) (w : World) : World :=
  {| lastId := lastId w; heap := heap w; on_map := on_map w;
     polygonLayer := polygonLayer w; pointGroupLayer := h;
     panel_open := panel_open w; sidebar_title := sidebar_title w;
     sidebar_content := sidebar_content w |}.

Definition set_panel_open (p : option string) (w : World) : World :=
  {| lastId := lastId w; heap := heap w; on_map := on_map w;
     polygonLayer := polygonLayer w; pointGroupLayer := pointGroupLayer w;
     panel_open := p; sidebar_title := sidebar_title w;
     sidebar_content := sidebar_content w |}.

Definition set_sidebar_title (t : string) (w : World) : World :=
  {| lastId := lastId w; heap := heap w; on_map := on_map w;
     polygonLayer := polygonLayer w; pointGroupLayer := pointGroupLayer w;
     panel_open := panel_open w; sidebar_title := t;
     sidebar_content := sidebar_content w |}.

Definition set_sidebar_content (t : string) (w : World) : World :=
  {| lastId := lastId w; heap := heap w; on_map := on_map w;
     polygonLayer := polygonLayer w; pointGroupLayer := pointGroupLayer w;
     panel_open := panel_open w; sidebar_title := sidebar_title w;
     sidebar_content := t |}.

(** ** The collaborators, as far as the script uses them *)

(** What Leaflet accepts is Leaflet's to say, and the script checks nothing
    before it calls.  [valid_LatLng lat lng] holds when [L.marker([lat, lng])]
    makes a marker; otherwise it throws (Invalid LatLng object), as it does
    on a missing or non-numeric coordinate.  [path_geometry g] holds when
    [L.geoJSON] makes a path of a feature with geometry [g]: the kind is one
    of Leaflet's line and polygon kinds and the coordinates have that kind's
    shape; on a missing or unknown kind or on coordinates of another shape
    Leaflet throws.  The sheet is one of lines and polygons; a geometry that
    Leaflet would draw as a marker is not told apart from a rejected one. *)
Class Leaflet := {
  valid_LatLng : value → value → bool;
  path_geometry : Geometry → bool }.

Section Script.

Context `{leaflet : Leaflet}.

(** A new layer object: Leaflet stamps it with the next id. *)
Definition new_layer (l : layer) : M handle := λ w,
  (Normal (lastId w),
   {| lastId := S (lastId w); heap := <[lastId w := l]> (heap w);
      on_map := on_map w;
      polygonLayer := polygonLayer w; pointGroupLayer := pointGroupLayer w;
      panel_open := panel_open w; sidebar_title := sidebar_title w;
      sidebar_content := sidebar_content w |}).

(** [layer.addTo(map)] and [layer.remove()].  Removing a layer that is on no
    map does nothing. *)
Definition addTo_map (h : handle) : M handle :=
  modify (set_on_map (λ s, {[h]} ∪ s));; mret h.

Definition remove (h : handle) : M unit :=
  modify (set_on_map (λ s, s ∖ {[h]})).

(** [path.setStyle(style)]: the given options overwrite the path's own, the
    others stay. *)
Definition setStyle (style : gmap string styleval) (p : PathLayer) : PathLayer :=
  {| feature := feature p; options := style ∪ options p |}.

(** [$(sel).text(v)]: with [undefined] jQuery reads instead of writing. *)
Definition jq_text (set : string → World → World) (v : value) : M unit :=
  match v with
  | Some t => modify (set t)
  | None => mret tt
  end.

(** [sidebar.open(id)] and [sidebar.close()]. *)
Definition sidebar_open (id : string) : M unit := modify (set_panel_open (Some id)).
Definition sidebar_close : M unit := modify (set_panel_open None).

(** [L.geoJSON(fc, {onEachFeature, style})]: one path per feature, in the
    order of [fc.features], each given [style].  If Leaflet cannot make a
    path of some feature it throws, and there is no layer. *)
Definition drawable (fs : list Feature) : bool :=
  forallb (λ f, path_geometry (f_geometry f)) fs.

Definition L_geoJSON (fc : FeatureCollection) (style : gmap string styleval) : M handle :=
  if drawable (fc_features fc) then
    new_layer (GeoJSON (map (λ f, setStyle style {| feature := f; options := ∅ |})
                            (fc_features fc)))
  else throw LeafletError.

Definition L_layerGroup : M handle := new_layer (LayerGroup []).

(** A marker is what the script hands to Leaflet: the position as read from
    the row, the popup text and the icon options.  [L.marker] throws on a
    position Leaflet does not accept. *)
Definition L_marker (latlng : value * value) : completion Marker :=
  if valid_LatLng (fst latlng) (snd latlng)
  then Normal {| m_latlng := latlng; m_popup := None; m_icon := None |}
  else Throw LeafletError.

Definition bindPopup (content : string) (m : Marker) : Marker :=
  {| m_latlng := m_latlng m; m_popup := Some content; m_icon := m_icon m |}.

Definition setIcon (i : Icon) (m : Marker) : Marker :=
  {| m_latlng := m_latlng m; m_popup := m_popup m; m_icon := Some i |}.

(** [marker.addTo(group)]: the group's layers in the order they were added. *)
Definition addTo_group (m : Marker) (g : handle) : M unit :=
  modify (set_heap (alter (λ l, match l with
                                | LayerGroup ms => LayerGroup (ms ++ [m])
                                | _ => l
                                end) g)).

(** ** The script *)

Definition panelID : string := "my-info-panel".

(** The state once the script's top level has run and before any callback:
    the base map is shown, the panel is collapsed with its initial title,
    both slots are unset. *)
Definition page_loaded : World :=
  {| lastId := 1; heap := {[ 0 := TileLayer ]}; on_map := {[ 0 ]};
     polygonLayer := None; pointGroupLayer := None;
     panel_open := None;
     sidebar_title := " No item selected"; sidebar_content := "" |}.

(** [map.on('click', ...)]: the two [.text] lines are commented out in the
    source, only the panel is closed. *)
Definition map_click : M unit := sidebar_close.

Definition polygonStyle : gmap string styleval :=
  <["color" := SStr "#2ca25f"]> (<["fillColor" := SStr "#99d8c9"]> (<["weight" := SNum 2]> ∅)).

Definition polygonHoverStyle : gmap string styleval :=
  <["color" := SStr "green"]> (<["fillColor" := SStr "#2ca25f"]> (<["weight" := SNum 4]> ∅)).

(** The body of [for (var row in data)], with [features] standing for
    [geojsonPolys.features]. *)
Definition polygon_row (row : Row) (features : list Feature) : completion (list Feature) :=
  if loose_eq (row !! "include") "y" then
    match JSON_parse (ToString (row !! "geometry")) with
    | None => Throw (SyntaxError (ToString (row !! "geometry")))
    | Some coords =>
        Normal (features ++
          [ {| f_type := "Feature";
               f_geometry := {| g_type := row !! "geotype"; g_coordinates := coords |};
               f_properties := {| p_Title := row !! "Title";
                                  p_type := row !! "Type";
                                  p_file_num := row !! "file_num";
                                  p_myinfo := row !! "myinfo" |} |} ])
    end
  else Normal features.

(** The whole loop, over the rows in the order of the array. *)
Fixpoint polygon_rows (data : list Row) (features : list Feature) : completion (list Feature) :=
  match data with
  | [] => Normal features
  | row :: rest =>
      match polygon_row row features with
      | Normal features' => polygon_rows rest features'
      | Throw e => Throw e
      end
  end.

(** The event object a handler receives; [stopped] is what
    [L.DomEvent.stopPropagation] sets. *)
Record MouseEvent := {
  target : handle * nat;
  stopped : bool }.

Definition stopPropagation (e : MouseEvent) : MouseEvent :=
  {| target := target e; stopped := true |}.

(** [e.target.setStyle(style)], the target being path [i] of a layer. *)
Definition restyle (style : gmap string styleval) (i : nat) (l : layer) : layer :=
  match l with
  | GeoJSON ch => GeoJSON (alter (setStyle style) i ch)
  | _ => l
  end.

Definition target_setStyle (e : MouseEvent) (style : gmap string styleval) : M unit :=
  modify (set_heap (alter (restyle style (snd (target e))) (fst (target e)))).

(** The three handlers [onEachFeature] binds; [this] is [e.target]. *)
Definition mouseout (e : MouseEvent) : M MouseEvent :=
  target_setStyle e polygonStyle;; mret e.

Definition mouseover (e : MouseEvent) : M MouseEvent :=
  target_setStyle e polygonHoverStyle;; mret e.

Definition click (this : PathLayer) (e : MouseEvent) : M MouseEvent :=
  let e := stopPropagation e in
  jq_text set_sidebar_title (p_type (f_properties (feature this)));;
  jq_text set_sidebar_content (p_myinfo (f_properties (feature this)));;
  sidebar_open panelID;;
  mret e.

(** [addPolygons(data)], the callback Tabletop calls with the polygon
    sheet.  The slot is assigned last, after [L.geoJSON(...).addTo(map)], so
    a throw of [JSON.parse] or of [L.geoJSON] leaves it as it was. *)
Definition addPolygons (data : list Row) : M unit :=
  old ← get polygonLayer;
  match old with
  | Some h => remove h
  | None => mret tt
  end;;
  features ← lift (polygon_rows data []);
  let geojsonPolys := {| fc_type := "FeatureCollection"; fc_features := features |} in
  h ← L_geoJSON geojsonPolys polygonStyle;
  h ← addTo_map h;
  modify (set_polygonLayer (Some h)).

(** The body of [for (row = 0; row < data.length; row++)].  The marker is
    one object shared with the group, so the popup and the icon set after
    [addTo] are the group's marker's.  When [L.marker] throws, the loop
    stops there and the group keeps the markers it has. *)
Definition point_row (row : Row) (group : handle) : M unit :=
  marker ← lift (L_marker (row !! "lat", row !! "long"));
  let marker := bindPopup ("<h2>" ++ ToString (row !! "Type") ++ "</h2><br>"
                           ++ ToString (row !! "Title") ++ "<br>"
                           ++ ToString (row !! "Comments")) marker in
  let icon := {| icon := row !! "Marker_Icon";
                 iconColor := "white";
                 markerColor := row !! "Color";
                 prefix := "fa";
                 extraClasses := "flip-horizontal" |} in
  let marker := setIcon icon marker in
  addTo_group marker group.

Fixpoint point_rows (data : list Row) (group : handle) : M unit :=
  match data with
  | [] => mret tt
  | row :: rest => point_row row group;; point_rows rest group
  end.

(** [addPoints(data)], the callback Tabletop calls with the point sheet.
    The new group is on the map and in the slot before the first marker. *)
Definition addPoints (data : list Row) : M unit :=
  old ← get pointGroupLayer;
  match old with
  | Some h => remove h
  | None => mret tt
  end;;
  g ← L_layerGroup;
  g ← addTo_map g;
  modify (set_pointGroupLayer (Some g));;
  point_rows data g.

(** The [$.getJSON] callback at the end of the script. *)
Definition addBoundary : M unit :=
  h ← new_layer Boundary;
  addTo_map h;; mret tt.

(** ** Events *)

Inductive mouse := Out | Over | Press.

(** What can happen after the page has loaded: Tabletop delivers a sheet,
    the boundary file arrives, or the user clicks the map or moves over,
    moves off or clicks path [i] of layer [h]. *)
Inductive event :=
  | PolygonSheet (data : list Row)
  | PointSheet (data : list Row)
  | BoundaryFile
  | MapClick
  | OnFeature (m : mouse) (h : handle) (i : nat).

(** Leaflet fires a mouse event on the path under the pointer, then on the
    map unless the event was stopped.  Only paths of a layer the map shows
    can be under the pointer; hovering is not passed on to the map's click
    handler. *)
Definition fire (m : mouse) (h : handle) (i : nat) : M unit :=
  shown ← get on_map;
  objs ← get heap;
  if decide (h ∈ shown) then
    match objs !! h with
    | Some (GeoJSON ch) =>
        match ch !! i with
        | Some this =>
            let e := {| target := (h, i); stopped := false |} in
            match m with
            | Out => mouseout e;; mret tt
            | Over => mouseover e;; mret tt
            | Press => e' ← click this e;
                       if stopped e' then mret tt else map_click
            end
        | None => mret tt
        end
    | _ => mret tt
    end
  else mret tt.

Definition dispatch (ev : event) : M unit :=
  match ev with
  | PolygonSheet data => addPolygons data
  | PointSheet data => addPoints data
  | BoundaryFile => addBoundary
  | MapClick => map_click
  | OnFeature m h i => fire m h i
  end.

(** An exception that leaves a callback is reported by the host; the state
    reached so far stays. *)
Definition step (w : World) (ev : event) : World := snd (dispatch ev w).

Definition run (evs : list event) (w : World) : World := fold_left step evs w.

(** The two hover events on path [i] of layer [h], and the style each sets. *)
Definition hover_event (h : handle) (i : nat) (over : bool) : event :=
  OnFeature (if over then Over else Out) h i.

Definition hover_style (over : bool) : gmap string styleval :=
  if over then polygonHoverStyle else polygonStyle.

(** ** What the map shows *)

Definition is_polygon_layer (w : World) (h : handle) : Prop :=
  ∃ ch, heap w !! h = Some (GeoJSON ch).

Definition is_point_group (w : World) (h : handle) : Prop :=
  ∃ ms, heap w !! h = Some (LayerGroup ms).

#[global] Instance is_polygon_layer_dec w h : Decision (is_polygon_layer w h).
Proof.
  unfold is_polygon_layer.
  destruct (heap w !! h) as [[| |ch|ms]|]; [right|right|left|right|right];
    try (intros [? ?]; discriminate); by eexists.
Defined.

#[global] Instance is_point_group_dec w h : Decision (is_point_group w h).
Proof.
  unfold is_point_group.
  destruct (heap w !! h) as [[| |ch|ms]|]; [right|right|right|left|right];
    try (intros [? ?]; discriminate); by eexists.
Defined.

(** The polygon layers and the point groups attached to the map. *)
Definition polygon_layers_on_map (w : World) : gset handle :=
  filter (is_polygon_layer w) (on_map w).

Definition point_groups_on_map (w : World) : gset handle :=
  filter (is_point_group w) (on_map w).

(** The features the map shows, layer by layer. *)
Definition visible_features (w : World) : list Feature :=
  h ← elements (polygon_layers_on_map w);
  match heap w !! h with
  | Some (GeoJSON ch) => map feature ch
  | _ => []
  end.

(** The features of the layer the polygon slot refers to. *)
Definition slot_features (w : World) : option (list Feature) :=
  match polygonLayer w with
  | Some h =>
      match heap w !! h with
      | Some (GeoJSON ch) => Some (map feature ch)
      | _ => None
      end
  | None => None
  end.

(** The markers of the group the point slot refers to. *)
Definition group_markers (w : World) : list Marker :=
  match pointGroupLayer w with
  | Some g =>
      match heap w !! g with
      | Some (LayerGroup ms) => ms
      | _ => []
      end
  | None => []
  end.

(** The path of feature [i] of layer [h]. *)
Definition path_at (w : World) (h : handle) (i : nat) : option PathLayer :=
  match heap w !! h with
  | Some (GeoJSON ch) => ch !! i
  | _ => None
  end.

(** ** Closed forms of the callbacks and the invariants of the state *)

(** The layers the map shows once the slot's layer is removed. *)
Definition detach (slot : option handle) (shown : gset handle) : gset handle :=
  match slot with
  | Some h => shown ∖ {[h]}
  | None => shown
  end.

(** The feature array [addPolygons] hands to Leaflet and Leaflet accepts:
    the loop completes and every feature can be drawn. *)
Definition collection (data : list Row) : completion (list Feature) :=
  match polygon_rows data [] with
  | Normal fs => if drawable fs then Normal fs else Throw LeafletError
  | Throw e => Throw e
  end.

(** The rows of a point sheet that get a marker: those before the first
    row whose position Leaflet rejects. *)
Fixpoint placed (data : list Row) : list Row :=
  match data with
  | [] => []
  | row :: rest =>
      if valid_LatLng (row !! "lat") (row !! "long") then row :: placed rest else []
  end.

Definition all_placed (data : list Row) : bool :=
  forallb (λ row : Row, valid_LatLng (row !! "lat") (row !! "long")) data.

(** How [addPoints] ends. *)
Definition points_completion (data : list Row) : completion unit :=
  if all_placed data then Normal tt else Throw LeafletError.

(** The path [L_geoJSON] makes for a feature. *)
Definition new_path (f : Feature) : PathLayer :=
  setStyle polygonStyle {| feature := f; options := ∅ |}.

(** The marker one turn of the loop of [addPoints] leaves in the group. *)
Definition row_marker (row : Row) : Marker :=
  {| m_latlng := (row !! "lat", row !! "long");
     m_popup := Some ("<h2>" ++ ToString (row !! "Type") ++ "</h2><br>"
                      ++ ToString (row !! "Title") ++ "<br>"
                      ++ ToString (row !! "Comments"))%string;
     m_icon := Some {| icon := row !! "Marker_Icon";
                       iconColor := "white";
                       markerColor := row !! "Color";
                       prefix := "fa";
                       extraClasses := "flip-horizontal" |} |}.

Definition push_markers (ms : list Marker) (l : layer) : layer :=
  match l with
  | LayerGroup ms0 => LayerGroup (ms0 ++ ms)
  | _ => l
  end.

(** The state after [jq_text] and after [click]. *)
Definition written (set : string → World → World) (v : value) (w : World) : World :=
  match v with
  | Some t => set t w
  | None => w
  end.

Definition clicked (this : PathLayer) (w : World) : World :=
  set_panel_open (Some panelID)
    (written set_sidebar_content (p_myinfo (f_properties (feature this)))
       (written set_sidebar_title (p_type (f_properties (feature this))) w)).

(** The feature an included row pushes. *)
Definition row_feature (row : Row) (coords : json) : Feature :=
  {| f_type := "Feature";
     f_geometry := {| g_type := row !! "geotype"; g_coordinates := coords |};
     f_properties := {| p_Title := row !! "Title";
                        p_type := row !! "Type";
                        p_file_num := row !! "file_num";
                        p_myinfo := row !! "myinfo" |} |}.

Definition slot_set (slot : option handle) : gset handle :=
  match slot with
  | Some h => {[h]}
  | None => ∅
  end.

(** Handles are stamped in increasing order, and a polygon layer or point
    group the map shows is the one its slot refers to. *)
Record wf (w : World) : Prop := {
  wf_heap : ∀ h, is_Some (heap w !! h) → h < lastId w;
  wf_map : ∀ h, h ∈ on_map w → h < lastId w;
  wf_polygon : ∀ h, h ∈ on_map w → is_polygon_layer w h → polygonLayer w = Some h;
  wf_points : ∀ h, h ∈ on_map w → is_point_group w h → pointGroupLayer w = Some h }.

(** A slot refers to a layer of its own kind. *)
Record slots_ok (w : World) : Prop := {
  polygon_slot_ok : ∀ h, polygonLayer w = Some h → is_polygon_layer w h;
  point_slot_ok : ∀ h, pointGroupLayer w = Some h → is_point_group w h }.

(** Every path the script has made carries one of its two styles. *)
Definition styled (w : World) : Prop :=
  ∀ h i p, path_at w h i = Some p → ∃ over, options p = hover_style over.

(** ** Layers over time *)

(** The layers the script puts on the map once and never refers to again:
    the base map and the parish boundary. *)
Definition is_static (l : layer) : bool :=
  match l with
  | TileLayer | Boundary => true
  | GeoJSON _ | LayerGroup _ => false
  end.

(** Two states of one layer object: a polygon layer may have been restyled
    but holds the same features in the same order, any other layer is as it
    was. *)
Definition same_layer (l l' : layer) : Prop :=
  match l, l' with
  | GeoJSON ch, GeoJSON ch' => map feature ch = map feature ch'
  | _, _ => l = l'
  end.

(** What the panel would show of a value: jQuery leaves the text alone when
    the value is [undefined]. *)
Definition shown_text (old : string) (v : value) : string :=
  match v with
  | Some t => t
  | None => old
  end.

(** ** Sample sheets *)

(** A value that is present and written as a JSON number. *)
Definition is_number (x : value) : bool :=
  match x with
  | Some t => match JSON_parse t with Some (JNum _) => true | _ => false end
  | None => false
  end.

Definition is_position (c : json) : bool :=
  match c with
  | JArr (JNum _ :: JNum _ :: _) => true
  | _ => false
  end.

Definition is_line (c : json) : bool :=
  match c with
  | JArr ps => forallb is_position ps
  | _ => false
  end.

Definition is_rings (c : json) : bool :=
  match c with
  | JArr rs => forallb is_line rs
  | _ => false
  end.

(** A Leaflet for the examples: it takes positions written as JSON numbers,
    and line strings and polygons whose coordinates are lists of number
    pairs of the right depth.  Leaflet takes all of these, and rejects what
    the examples have rejected: a missing coordinate, the text north, a
    missing kind.  No theorem depends on this instance. *)
Definition sheet_leaflet : Leaflet :=
  {| valid_LatLng lat lng := is_number lat && is_number lng;
     path_geometry g :=
       match g_type g with
       | Some "LineString" => is_line (g_coordinates g)
       | Some "Polygon" => is_rings (g_coordinates g)
       | _ => false
       end |}.

Definition road_row : Row :=
  list_to_map [("include", "y"); ("geometry", "[[1,2],[3,4]]");
               ("geotype", "LineString"); ("Title", "Main St"); ("Type", "Road");
               ("file_num", "17"); ("myinfo", "repaving")].

Definition path_row : Row :=
  list_to_map [("include", "y"); ("geometry", "[[5,6],[7,8]]");
               ("geotype", "LineString"); ("Title", "Levee trail"); ("Type", "Path");
               ("file_num", "18"); ("myinfo", "new trail")].

(** Upper case, so not included. *)
Definition upper_row : Row := <["include" := "Y"]> road_row.

(** No [include] column at all. *)
Definition bare_row : Row := delete "include" road_row.

(** Included, but the geometry text stops short. *)
Definition broken_row : Row := <["geometry" := "[[1,2],[3,4]"]> road_row.

Definition flag_row : Row :=
  list_to_map [("lat", "30.1"); ("long", "-90.2"); ("Type", "Bridge");
               ("Title", "Bayou crossing"); ("Comments", "open");
               ("Marker_Icon", "flag"); ("Color", "red")].

(** * Proofs *)

(** ** [JSON_parse] does not fail for lack of fuel *)

Lemma skip_ws_length s : length (skip_ws s) ≤ length s.
Proof.
  induction s as [|c r IH]; simpl; [done|].
  destruct (is_ws c); simpl; lia.
Qed.

Lemma digits_length s acc k v k' r :
  digits s acc k = (v, k', r) → length r ≤ length s.
Proof.
  revert acc k. induction s as [|c s IH]; intros acc k; simpl.
  - intros ?; by simplify_eq/=.
  - destruct (digit_val c) as [d|].
    + intros H%IH. lia.
    + intros ?; by simplify_eq/=.
Qed.

Lemma parse_int_length s v r : parse_int s = Some (v, r) → length r < length s.
Proof.
  destruct s as [|c s]; simpl; [done|].
  destruct (eqc c "0"); [intros ?; simplify_eq/=; lia|].
  destruct (digit_val c) as [d|]; [|done].
  destruct (digits s d 1) as [[v' k'] r'] eqn:Ed.
  intros ?; simplify_eq/=. apply digits_length in Ed. lia.
Qed.

Lemma parse_frac_length m s v k r :
  parse_frac m s = Some (v, k, r) → length r ≤ length s.
Proof.
  destruct s as [|c s]; simpl; [intros ?; by simplify_eq|].
  destruct (eqc c "."); [|intros ?; by simplify_eq].
  destruct (digits s m 0) as [[v' k'] r'] eqn:Ed.
  destruct (k' =? 0)%Z; [done|].
  intros ?; simplify_eq/=. apply digits_length in Ed. lia.
Qed.

Lemma parse_exp_digits_length neg s v r :
  parse_exp_digits neg s = Some (v, r) → length r ≤ length s.
Proof.
  unfold parse_exp_digits.
  destruct (digits s 0 0) as [[v' k'] r'] eqn:Ed.
  destruct (k' =? 0)%Z; [done|].
  intros ?; simplify_eq/=. by apply digits_length in Ed.
Qed.

Lemma parse_exp_length s v r : parse_exp s = Some (v, r) → length r ≤ length s.
Proof.
  destruct s as [|c s]; simpl; [intros ?; by simplify_eq|].
  destruct (eqc c "e" || eqc c "E"); [|intros ?; by simplify_eq].
  destruct s as [|c' s']; [done|].
  destruct (eqc c' "+"); [intros H%parse_exp_digits_length; simpl; lia|].
  destruct (eqc c' "-"); intros H%parse_exp_digits_length; simpl in *; lia.
Qed.

Lemma parse_unsigned_length neg s v r :
  parse_unsigned neg s = Some (v, r) → length r < length s.
Proof.
  unfold parse_unsigned.
  destruct (parse_int s) as [[i s2]|] eqn:Ei; [|done].
  destruct (parse_frac i s2) as [[[m k] s3]|] eqn:Ef; [|done].
  destruct (parse_exp s3) as [[e s4]|] eqn:Ee; [|done].
  intros ?; simplify_eq/=.
  apply parse_int_length in Ei. apply parse_frac_length in Ef.
  apply parse_exp_length in Ee. lia.
Qed.

Lemma parse_number_length s v r :
  parse_number s = Some (v, r) → length r < length s.
Proof.
  destruct s as [|c s]; simpl; [done|].
  destruct (eqc c "-"); intros H%parse_unsigned_length; simpl in *; lia.
Qed.

Lemma parse_chars_length s acc cs r :
  parse_chars s acc = Some (cs, r) → length r < length s.
Proof.
  remember (length s) as n eqn:En. assert (length s ≤ n) as Hn by lia. clear En.
  revert s acc Hn. induction n as [|n IH]; intros s acc Hn.
  - destruct s; [done|simpl in Hn; lia].
  - destruct s as [|c s]; [done|]. simpl in Hn. cbn [parse_chars].
    destruct (Ascii.eqb c quote); [intros ?; simplify_eq/=; simpl; lia|].
    destruct (eqc c "\").
    + destruct s as [|e s]; [done|]. simpl in Hn.
      destruct (eqc e "u").
      * destruct s as [|h1 [|h2 [|h3 [|h4 s]]]]; try done. simpl in Hn.
        destruct (hex4 h1 h2 h3 h4) as [u|]; [|done].
        intros H%IH; simpl in *; lia.
      * destruct (escape e) as [u|]; [|done].
        intros H%IH; simpl in *; lia.
    + destruct (N_of_ascii c <? 32)%N; [done|].
      intros H%IH; simpl in *; lia.
Qed.

Lemma literal_length lit v s v' r :
  lit ≠ "" → literal lit v s = Some (v', r) → length r < length s.
Proof.
  intros Hlit. unfold literal. case_decide as Ht; [|done].
  intros ?; simplify_eq/=. rewrite length_drop.
  apply (f_equal length) in Ht. rewrite length_take in Ht.
  destruct lit as [|a lit]; [done|].
  change (list_ascii_of_string (String a lit)) with (a :: list_ascii_of_string lit) in *.
  cbn [length] in *. lia.
Qed.

(** A call that succeeds read something, and succeeds again, with the same
    result, on any fuel that is at least twice what it read. *)
Lemma parse_fuel n :
  (∀ s v r, parse_value n s = Some (v, r) →
     length r < length s
     ∧ ∀ m, 2 * (length s - length r) ≤ m → parse_value m s = Some (v, r))
  ∧ (∀ s acc v r, parse_elements n s acc = Some (v, r) →
     length r < length s
     ∧ ∀ m, 2 * (length s - length r) ≤ m → parse_elements m s acc = Some (v, r))
  ∧ (∀ s acc v r, parse_members n s acc = Some (v, r) →
     length r < length s
     ∧ ∀ m, 2 * (length s - length r) ≤ m → parse_members m s acc = Some (v, r)).
Proof.
  induction n as [|n (IHv & IHe & IHm)]; [by repeat split|].
  split; [|split].
  - intros s v r. cbn [parse_value].
    pose proof (skip_ws_length s) as Hws.
    destruct (skip_ws s) as [|c s1] eqn:Es; [done|]. simpl in Hws.
    destruct (eqc c "[") eqn:E1.
    { pose proof (skip_ws_length s1) as Hws1.
      destruct (skip_ws s1) as [|c' s2] eqn:Es1; [done|]. simpl in Hws1.
      destruct (eqc c' "]") eqn:E2.
      - intros ?; simplify_eq/=. split; [lia|]. intros [|m] Hm; [lia|].
        cbn [parse_value]. by rewrite Es, E1, Es1, E2.
      - intros [Hlen Hfuel]%IHe. split; [lia|]. intros [|m] Hm; [lia|].
        cbn [parse_value]. rewrite Es, E1, Es1, E2. apply Hfuel. lia. }
    destruct (eqc c "{") eqn:E3.
    { pose proof (skip_ws_length s1) as Hws1.
      destruct (skip_ws s1) as [|c' s2] eqn:Es1; [done|]. simpl in Hws1.
      destruct (eqc c' "}") eqn:E2.
      - intros ?; simplify_eq/=. split; [lia|]. intros [|m] Hm; [lia|].
        cbn [parse_value]. by rewrite Es, E1, E3, Es1, E2.
      - intros [Hlen Hfuel]%IHm. split; [lia|]. intros [|m] Hm; [lia|].
        cbn [parse_value]. rewrite Es, E1, E3, Es1, E2. apply Hfuel. lia. }
    intros Hleaf.
    assert (length r < length (c :: s1)) as Hlen.
    { destruct (Ascii.eqb c quote).
      - destruct (parse_chars s1 []) as [[cs r']|] eqn:Ec; [|done].
        simplify_eq/=. apply parse_chars_length in Ec. simpl. lia.
      - destruct (eqc c "t"); [by eapply literal_length in Hleaf|].
        destruct (eqc c "f"); [by eapply literal_length in Hleaf|].
        destruct (eqc c "n"); [by eapply literal_length in Hleaf|].
        by apply parse_number_length in Hleaf. }
    simpl in Hlen. split; [lia|]. intros [|m] Hm; [lia|].
    cbn [parse_value]. by rewrite Es, E1, E3.
  - intros s acc v r. cbn [parse_elements].
    destruct (parse_value n s) as [[v1 r1]|] eqn:Ev; [|done].
    destruct (IHv _ _ _ Ev) as [Hlen1 Hfuel1].
    pose proof (skip_ws_length r1) as Hws.
    destruct (skip_ws r1) as [|c r2] eqn:Es; [done|]. simpl in Hws.
    destruct (eqc c ",") eqn:E1.
    { intros [Hlen Hfuel]%IHe. split; [lia|]. intros [|m] Hm; [lia|].
      cbn [parse_elements]. rewrite Hfuel1 by lia. rewrite Es, E1. apply Hfuel. lia. }
    destruct (eqc c "]") eqn:E2; [|done].
    intros ?; simplify_eq/=. split; [lia|]. intros [|m] Hm; [lia|].
    cbn [parse_elements]. rewrite Hfuel1 by lia. by rewrite Es, E1, E2.
  - intros s acc v r. cbn [parse_members].
    pose proof (skip_ws_length s) as Hws.
    destruct (skip_ws s) as [|q s1] eqn:Es; [done|]. simpl in Hws.
    destruct (Ascii.eqb q quote) eqn:Eq; [|done].
    destruct (parse_chars s1 []) as [[k r1]|] eqn:Ec; [|done].
    pose proof (parse_chars_length _ _ _ _ Ec) as Hlenk.
    pose proof (skip_ws_length r1) as Hws1.
    destruct (skip_ws r1) as [|c r2] eqn:Es1; [done|]. simpl in Hws1.
    destruct (eqc c ":") eqn:E1; [|done].
    destruct (parse_value n r2) as [[v1 r3]|] eqn:Ev; [|done].
    destruct (IHv _ _ _ Ev) as [Hlen1 Hfuel1].
    pose proof (skip_ws_length r3) as Hws3.
    destruct (skip_ws r3) as [|c' r4] eqn:Es3; [done|]. simpl in Hws3.
    destruct (eqc c' ",") eqn:E2.
    { intros [Hlen Hfuel]%IHm. split; [lia|]. intros [|m] Hm; [lia|].
      cbn [parse_members]. rewrite Es, Eq, Ec, Es1, E1. rewrite Hfuel1 by lia.
      rewrite Es3, E2. apply Hfuel. lia. }
    destruct (eqc c' "}") eqn:E3; [|done].
    intros ?; simplify_eq/=. split; [lia|]. intros [|m] Hm; [lia|].
    cbn [parse_members]. rewrite Es, Eq, Ec, Es1, E1. rewrite Hfuel1 by lia.
    by rewrite Es3, E2, E3.
Qed.

(** Whatever fuel a parse of the whole text succeeds with, [JSON_parse]
    finds the same value: [None] is a syntax error, never an empty tank. *)
Lemma JSON_parse_complete text n v r :
  parse_value n (list_ascii_of_string text) = Some (v, r) →
  skip_ws r = [] →
  JSON_parse text = Some v.
Proof.
  intros Hv Hr. unfold JSON_parse.
  destruct (proj1 (parse_fuel n) _ _ _ Hv) as [Hlen Hfuel].
  rewrite Hfuel by lia. by rewrite Hr.
Qed.

(** ** The callbacks in closed form *)

Lemma addPolygons_run data w :
  addPolygons data w =
  match collection data with
  | Normal fs =>
      (Normal tt,
       {| lastId := S (lastId w);
          heap := <[lastId w := GeoJSON (map new_path fs)]> (heap w);
          on_map := {[lastId w]} ∪ detach (polygonLayer w) (on_map w);
          polygonLayer := Some (lastId w);
          pointGroupLayer := pointGroupLayer w;
          panel_open := panel_open w; sidebar_title := sidebar_title w;
          sidebar_content := sidebar_content w |})
  | Throw e => (Throw e, set_on_map (detach (polygonLayer w)) w)
  end.
Proof.
  unfold addPolygons, collection, L_geoJSON, throw, mbind, M_bind, get, lift,
    remove, modify, mret, M_ret.
  destruct w as [n hp sh [h|] pg po ti co]; simpl;
    destruct (polygon_rows data []) as [fs|e]; try reflexivity;
    simpl; destruct (drawable fs); reflexivity.
Qed.

Lemma collection_Normal data fs :
  collection data = Normal fs ↔ polygon_rows data [] = Normal fs ∧ drawable fs = true.
Proof.
  unfold collection. destruct (polygon_rows data []) as [fs'|e].
  - destruct (drawable fs') eqn:Ed; split.
    + by intros [= <-].
    + by intros [[= <-] _].
    + done.
    + intros [[= <-] Hd]. congruence.
  - split; [done|]. by intros [? _].
Qed.

Lemma collection_Throw data e :
  polygon_rows data [] = Throw e → collection data = Throw e.
Proof. unfold collection. by intros ->. Qed.

Lemma push_nothing g w : set_heap (alter (push_markers []) g) w = w.
Proof.
  destruct w as [n hp sh pl pg po ti co]; unfold set_heap; simpl.
  f_equal. apply map_eq. intros k. rewrite lookup_alter.
  case_decide; [subst|done].
  destruct (hp !! k) as [[]|]; simpl; by rewrite ?app_nil_r.
Qed.

Lemma point_rows_run data g w :
  point_rows data g w
  = (points_completion data,
     set_heap (alter (push_markers (map row_marker (placed data))) g) w).
Proof.
  revert w. induction data as [|row rest IH]; intros w.
  - cbn. by rewrite push_nothing.
  - cbn [point_rows placed]. unfold points_completion, all_placed. cbn [forallb].
    unfold mbind, M_bind at 1. unfold point_row, L_marker, lift.
    unfold mbind, M_bind at 1. cbn [fst snd].
    destruct (valid_LatLng (row !! "lat") (row !! "long")); cbn [andb map].
    + unfold addTo_group, modify. rewrite IH. f_equal.
      destruct w as [n hp sh pl pg po ti co]; unfold set_heap; simpl.
      f_equal. apply map_eq. intros k. rewrite !lookup_alter.
      case_decide; [subst|done].
      destruct (hp !! k) as [[]|], (decide (k = k)); simpl; try done.
      by rewrite <- app_assoc.
    + by rewrite push_nothing.
Qed.

Lemma addPoints_run data w :
  addPoints data w =
  (points_completion data,
   {| lastId := S (lastId w);
      heap := <[lastId w := LayerGroup (map row_marker (placed data))]> (heap w);
      on_map := {[lastId w]} ∪ detach (pointGroupLayer w) (on_map w);
      polygonLayer := polygonLayer w;
      pointGroupLayer := Some (lastId w);
      panel_open := panel_open w; sidebar_title := sidebar_title w;
      sidebar_content := sidebar_content w |}).
Proof.
  unfold addPoints, mbind, M_bind, get, remove, modify, mret, M_ret,
    L_layerGroup, new_layer, addTo_map.
  destruct w as [n hp sh pl [h|] po ti co]; simpl;
    rewrite point_rows_run; unfold set_heap; simpl;
    by rewrite alter_insert_eq.
Qed.

(** ** The handlers in closed form *)

Lemma click_run this e w :
  click this e w = (Normal (stopPropagation e), clicked this w).
Proof.
  unfold click, clicked, written, jq_text, sidebar_open, mbind, M_bind, modify,
    mret, M_ret.
  by destruct (p_type _), (p_myinfo _).
Qed.

Lemma step_MapClick w : step w MapClick = set_panel_open None w.
Proof. reflexivity. Qed.

Lemma step_OnFeature w m h i :
  step w (OnFeature m h i) =
  if decide (h ∈ on_map w) then
    match path_at w h i with
    | Some this =>
        match m with
        | Out => set_heap (alter (restyle polygonStyle i) h) w
        | Over => set_heap (alter (restyle polygonHoverStyle i) h) w
        | Press => clicked this w
        end
    | None => w
    end
  else w.
Proof.
  unfold step, dispatch, fire, path_at, mbind, M_bind, get. simpl.
  case_decide; [|done].
  destruct (heap w !! h) as [[| |ch|ms]|]; try done.
  destruct (ch !! i) as [this|]; [|done].
  destruct m; try done.
  by rewrite click_run.
Qed.

Lemma step_PolygonSheet w data : step w (PolygonSheet data) = snd (addPolygons data w).
Proof. reflexivity. Qed.

Lemma step_PointSheet w data : step w (PointSheet data) = snd (addPoints data w).
Proof. reflexivity. Qed.

Lemma run_app evs1 evs2 w : run (evs1 ++ evs2) w = run evs2 (run evs1 w).
Proof. apply fold_left_app. Qed.

Lemma run_snoc evs ev w : run (evs ++ [ev]) w = step (run evs w) ev.
Proof. by rewrite run_app. Qed.

(** ** The invariant of the two slots *)

Lemma elem_of_detach slot (shown : gset handle) h :
  h ∈ detach slot shown ↔ h ∈ shown ∧ slot ≠ Some h.
Proof.
  destruct slot as [h'|]; simpl.
  - rewrite elem_of_difference, elem_of_singleton.
    split; intros [Hin Hne]; (split; [done|congruence]).
  - split; [by intros Hin|by intros [Hin _]].
Qed.

Lemma wf_init : wf page_loaded.
Proof.
  split; simpl.
  - intros h [l Hl]. apply lookup_singleton_Some in Hl as [<- _]. lia.
  - intros h ->%elem_of_singleton. lia.
  - intros h ->%elem_of_singleton [ch Hch]. simpl in Hch.
    by rewrite lookup_singleton_eq in Hch.
  - intros h ->%elem_of_singleton [ch Hch]. simpl in Hch.
    by rewrite lookup_singleton_eq in Hch.
Qed.

Lemma wf_addPolygons data w : wf w → wf (snd (addPolygons data w)).
Proof.
  intros [Hh Hm Hp Hg]. rewrite addPolygons_run.
  destruct (collection data) as [fs|e]; simpl.
  - split; simpl.
    + intros h [l Hl]. destruct (decide (h = lastId w)) as [->|Hne]; [lia|].
      rewrite lookup_insert_ne in Hl by done. specialize (Hh h (mk_is_Some _ _ Hl)). lia.
    + intros h [->%elem_of_singleton | [Hin _]%elem_of_detach]%elem_of_union; [lia|].
      specialize (Hm h Hin). lia.
    + intros h [->%elem_of_singleton | [Hin Hslot]%elem_of_detach]%elem_of_union;
        [done|].
      intros [ch Hch]. simpl in Hch.
      rewrite lookup_insert_ne in Hch by (specialize (Hm h Hin); lia).
      destruct Hslot. apply Hp; [done|]. by exists ch.
    + intros h [->%elem_of_singleton | [Hin Hslot]%elem_of_detach]%elem_of_union;
        intros [ms Hms]; simpl in Hms.
      * by rewrite lookup_insert_eq in Hms.
      * rewrite lookup_insert_ne in Hms by (specialize (Hm h Hin); lia).
        apply Hg; [done|]. by exists ms.
  - split; simpl; try done.
    + intros h [Hin _]%elem_of_detach. by apply Hm.
    + intros h [Hin Hslot]%elem_of_detach Hk. destruct Hslot. by apply Hp.
    + intros h [Hin _]%elem_of_detach Hk. by apply Hg.
Qed.

Lemma wf_addPoints data w : wf w → wf (snd (addPoints data w)).
Proof.
  intros [Hh Hm Hp Hg]. rewrite addPoints_run. split; simpl.
  - intros h [l Hl]. destruct (decide (h = lastId w)) as [->|Hne]; [lia|].
    rewrite lookup_insert_ne in Hl by done. specialize (Hh h (mk_is_Some _ _ Hl)). lia.
  - intros h [->%elem_of_singleton | [Hin _]%elem_of_detach]%elem_of_union; [lia|].
    specialize (Hm h Hin). lia.
  - intros h [->%elem_of_singleton | [Hin Hslot]%elem_of_detach]%elem_of_union;
      intros [ch Hch]; simpl in Hch.
    + by rewrite lookup_insert_eq in Hch.
    + rewrite lookup_insert_ne in Hch by (specialize (Hm h Hin); lia).
      apply Hp; [done|]. by exists ch.
  - intros h [->%elem_of_singleton | [Hin Hslot]%elem_of_detach]%elem_of_union;
      [done|].
    intros [ms Hms]. simpl in Hms.
    rewrite lookup_insert_ne in Hms by (specialize (Hm h Hin); lia).
    destruct Hslot. apply Hg; [done|]. by exists ms.
Qed.

Lemma restyle_polygon style i l :
  (∃ ch, restyle style i l = GeoJSON ch) ↔ (∃ ch, l = GeoJSON ch).
Proof. destruct l; simpl; split; intros [ch' H]; try discriminate; by eexists. Qed.

Lemma restyle_group style i l :
  (∃ ms, restyle style i l = LayerGroup ms) ↔ (∃ ms, l = LayerGroup ms).
Proof. destruct l; simpl; split; intros [ms' H]; try discriminate; by eexists. Qed.

Lemma wf_restyle style i h w : wf w → wf (set_heap (alter (restyle style i) h) w).
Proof.
  intros [Hh Hm Hp Hg]. split; simpl; try done.
  - intros h' Hs. apply Hh. rewrite lookup_alter in Hs.
    case_decide; [subst|done]. by apply fmap_is_Some in Hs.
  - intros h' Hin [ch Hch]. apply Hp; [done|]. simpl in Hch.
    rewrite lookup_alter in Hch. case_decide; [subst|by exists ch].
    destruct (heap w !! h') as [l|] eqn:El; [|done]. simpl in Hch.
    destruct (proj1 (restyle_polygon style i l)) as [ch' ->]; [|by exists ch'].
    exists ch. congruence.
  - intros h' Hin [ms Hms]. apply Hg; [done|]. simpl in Hms.
    rewrite lookup_alter in Hms. case_decide; [subst|by exists ms].
    destruct (heap w !! h') as [l|] eqn:El; [|done]. simpl in Hms.
    destruct (proj1 (restyle_group style i l)) as [ms' ->]; [|by exists ms'].
    exists ms. congruence.
Qed.

Lemma wf_clicked this w : wf w → wf (clicked this w).
Proof.
  intros [Hh Hm Hp Hg]. unfold clicked, written.
  destruct (p_type _), (p_myinfo _); by split.
Qed.

Lemma wf_addBoundary w : wf w → wf (snd (addBoundary w)).
Proof.
  intros [Hh Hm Hp Hg]. split; simpl.
  - intros h [l Hl]. destruct (decide (h = lastId w)) as [->|Hne]; [lia|].
    rewrite lookup_insert_ne in Hl by done. specialize (Hh h (mk_is_Some _ _ Hl)). lia.
  - intros h [->%elem_of_singleton | Hin]%elem_of_union; [lia|].
    specialize (Hm h Hin). lia.
  - intros h [->%elem_of_singleton | Hin]%elem_of_union; intros [ch Hch]; simpl in Hch.
    + by rewrite lookup_insert_eq in Hch.
    + rewrite lookup_insert_ne in Hch by (specialize (Hm h Hin); lia).
      apply Hp; [done|]. by exists ch.
  - intros h [->%elem_of_singleton | Hin]%elem_of_union; intros [ms Hms]; simpl in Hms.
    + by rewrite lookup_insert_eq in Hms.
    + rewrite lookup_insert_ne in Hms by (specialize (Hm h Hin); lia).
      apply Hg; [done|]. by exists ms.
Qed.

Lemma wf_step w ev : wf w → wf (step w ev).
Proof.
  intros Hw. destruct ev as [data|data| | |m h i].
  - by apply wf_addPolygons.
  - by apply wf_addPoints.
  - by apply wf_addBoundary.
  - rewrite step_MapClick. destruct Hw. by split.
  - rewrite step_OnFeature. case_decide; [|done].
    destruct (path_at w h i) as [this|]; [|done].
    destruct m; auto using wf_restyle, wf_clicked.
Qed.

Lemma wf_run evs w : wf w → wf (run evs w).
Proof.
  revert w. induction evs as [|ev evs IH]; intros w Hw; [done|].
  simpl. apply IH. by apply wf_step.
Qed.

Lemma wf_reachable evs : wf (run evs page_loaded).
Proof. apply wf_run, wf_init. Qed.

(** In a well-formed state each kind has at most the slot's layer shown. *)
Lemma polygon_layers_slot w :
  wf w → polygon_layers_on_map w ⊆ slot_set (polygonLayer w).
Proof.
  intros Hw h [Hk Hin]%elem_of_filter.
  rewrite (wf_polygon w Hw h Hin Hk). simpl. by apply elem_of_singleton.
Qed.

Lemma point_groups_slot w :
  wf w → point_groups_on_map w ⊆ slot_set (pointGroupLayer w).
Proof.
  intros Hw h [Hk Hin]%elem_of_filter.
  rewrite (wf_points w Hw h Hin Hk). simpl. by apply elem_of_singleton.
Qed.

Lemma size_slot (X : gset handle) (slot : option handle) :
  X ⊆ slot_set slot → (size X ≤ 1)%nat.
Proof.
  intros HX. apply subseteq_size in HX.
  destruct slot as [h|]; unfold slot_set in HX.
  - by rewrite size_singleton in HX.
  - rewrite size_empty in HX. lia.
Qed.

(** ** The row loop of [addPolygons] *)

Lemma loose_eq_true x s : loose_eq x s = true ↔ x = Some s.
Proof.
  destruct x as [t|]; simpl; [|done].
  rewrite String.eqb_eq. split; congruence.
Qed.

Lemma loose_eq_false x s : loose_eq x s = false ↔ x ≠ Some s.
Proof. rewrite <- loose_eq_true. by destruct (loose_eq x s). Qed.

Lemma polygon_row_skip row features :
  row !! "include" ≠ Some "y" → polygon_row row features = Normal features.
Proof. intros H%loose_eq_false. unfold polygon_row. by rewrite H. Qed.

Lemma polygon_row_push row features coords :
  row !! "include" = Some "y" →
  JSON_parse (ToString (row !! "geometry")) = Some coords →
  polygon_row row features = Normal (features ++ [row_feature row coords]).
Proof. intros H%loose_eq_true Hc. unfold polygon_row. by rewrite H, Hc. Qed.

Lemma polygon_row_throw row features :
  row !! "include" = Some "y" →
  JSON_parse (ToString (row !! "geometry")) = None →
  polygon_row row features = Throw (SyntaxError (ToString (row !! "geometry"))).
Proof. intros H%loose_eq_true Hc. unfold polygon_row. by rewrite H, Hc. Qed.

(** What one row adds does not depend on what is already in the array. *)
Lemma polygon_row_acc row features :
  polygon_row row features =
  match polygon_row row [] with
  | Normal mid => Normal (features ++ mid)
  | Throw e => Throw e
  end.
Proof.
  unfold polygon_row. destruct (loose_eq _ _); [|by rewrite app_nil_r].
  by destruct (JSON_parse _).
Qed.

Lemma polygon_rows_acc data features :
  polygon_rows data features =
  match polygon_rows data [] with
  | Normal fs => Normal (features ++ fs)
  | Throw e => Throw e
  end.
Proof.
  revert features. induction data as [|row rest IH]; intros features; simpl.
  - by rewrite app_nil_r.
  - rewrite (polygon_row_acc row features).
    destruct (polygon_row row []) as [mid|e]; [|done].
    rewrite (IH (features ++ mid)), (IH mid).
    destruct (polygon_rows rest []); [|done]. by rewrite app_assoc.
Qed.

Lemma polygon_rows_cons row rest :
  polygon_rows (row :: rest) [] =
  match polygon_row row [], polygon_rows rest [] with
  | Normal mid, Normal fs => Normal (mid ++ fs)
  | Throw e, _ => Throw e
  | Normal _, Throw e => Throw e
  end.
Proof.
  simpl. destruct (polygon_row row []) as [mid|e]; [|done].
  apply polygon_rows_acc.
Qed.


(** One bad included row anywhere makes the whole loop throw. *)
Lemma polygon_rows_throw data row :
  row ∈ data →
  row !! "include" = Some "y" →
  JSON_parse (ToString (row !! "geometry")) = None →
  ∃ e, polygon_rows data [] = Throw e.
Proof.
  intros Hin Hy Hbad. induction data as [|row0 rest IH].
  - by apply elem_of_nil in Hin.
  - rewrite polygon_rows_cons. apply elem_of_cons in Hin as [<-|Hin].
    + rewrite (polygon_row_throw _ _ Hy Hbad). by eexists.
    + destruct (polygon_row row0 []) as [mid|e]; [|by eexists].
      destruct (IH Hin) as [e ->]. by eexists.
Qed.


Lemma map_feature_new_path fs : map feature (map new_path fs) = fs.
Proof. induction fs as [|f fs IH]; simpl; by rewrite ?IH. Qed.

(** A call whose loop completes on features Leaflet can draw installs a
    layer with exactly the array's features, and that layer is the one
    polygon layer shown. *)
Lemma addPolygons_normal data w fs :
  collection data = Normal fs →
  ∃ w', addPolygons data w = (Normal tt, w') ∧
        lastId w' = S (lastId w) ∧
        polygonLayer w' = Some (lastId w) ∧
        pointGroupLayer w' = pointGroupLayer w ∧
        heap w' = <[lastId w := GeoJSON (map new_path fs)]> (heap w) ∧
        on_map w' = {[lastId w]} ∪ detach (polygonLayer w) (on_map w) ∧
        slot_features w' = Some fs.
Proof.
  intros Hfs. rewrite addPolygons_run, Hfs. eexists. split; [done|].
  unfold slot_features. simpl. rewrite lookup_insert_eq.
  by rewrite map_feature_new_path.
Qed.

Lemma addPolygons_installs data w fs :
  wf w →
  collection data = Normal fs →
  polygon_layers_on_map (step w (PolygonSheet data)) = {[lastId w]}
  ∧ visible_features (step w (PolygonSheet data)) = fs.
Proof.
  intros Hw Hfs. pose proof (wf_addPolygons data w Hw) as Hw'.
  rewrite step_PolygonSheet.
  destruct (addPolygons_normal data w fs Hfs) as (w' & Hrun & _ & Hslot & _ & Hheap & Hmap & _).
  rewrite Hrun in *. simpl in *.
  assert (polygon_layers_on_map w' = {[lastId w]}) as Hone.
  { apply set_eq. intros h. unfold polygon_layers_on_map.
    rewrite elem_of_filter, elem_of_singleton. split.
    - intros [Hk Hin]. pose proof (wf_polygon w' Hw' h Hin Hk). congruence.
    - intros ->. split.
      + eexists. rewrite Hheap. apply lookup_insert_eq.
      + rewrite Hmap. apply elem_of_union_l. by apply elem_of_singleton. }
  split; [done|].
  unfold visible_features. rewrite Hone, elements_singleton. simpl.
  rewrite Hheap, lookup_insert_eq, app_nil_r. apply map_feature_new_path.
Qed.

(** ** The claims about [addPolygons]' row loop *)


(** The test is on the exact text: other spellings of yes, padded or
    capitalised ones, and the empty text all leave the array as it is. *)
Example include_is_exact :
  Forall (λ v, polygon_row (<["include" := v]> road_row) [] = Normal [])
         ["Y"; " y"; "y "; "yes"; "true"; "1"; ""].
Proof. repeat constructor. Qed.


(** C5. An included row whose geometry text parses adds the feature whose
    geometry kind is the row's [geotype] as it is, whose coordinates are the
    parsed value, and whose properties are the row's [Title], [Type],
    [file_num] and [myinfo] as they are; the script checks neither the kind
    nor the shape.  When Leaflet can draw that geometry, a sheet of this one
    row installs a layer with exactly this feature.  With the text
    [[[1,2],[3,4]]] and the kind [LineString] the geometry is
    [{type:"LineString", coordinates:[[1,2],[3,4]]}]. *)
Theorem addPolygons_feature_fields (row : Row) (features : list Feature) (coords : json) :
  row !! "include" = Some "y" →
  JSON_parse (ToString (row !! "geometry")) = Some coords →
  polygon_row row features =
    Normal (features ++
      [ {| f_type := "Feature";
           f_geometry := {| g_type := row !! "geotype"; g_coordinates := coords |};
           f_properties := {| p_Title := row !! "Title"; p_type := row !! "Type";
                              p_file_num := row !! "file_num";
                              p_myinfo := row !! "myinfo" |} |} ])
  ∧ (∀ w, path_geometry {| g_type := row !! "geotype"; g_coordinates := coords |} = true →
          slot_features (step w (PolygonSheet [row]))
          = Some [ {| f_type := "Feature";
                      f_geometry := {| g_type := row !! "geotype"; g_coordinates := coords |};
                      f_properties := {| p_Title := row !! "Title"; p_type := row !! "Type";
                                         p_file_num := row !! "file_num";
                                         p_myinfo := row !! "myinfo" |} |} ])
  ∧ (∀ other : Row,
       let line := <["include" := "y"]> (<["geometry" := "[[1,2],[3,4]]"]>
                     (<["geotype" := "LineString"]> other)) in
       ∃ f, polygon_row line features = Normal (features ++ [f])
            ∧ f_geometry f =
                {| g_type := Some "LineString";
                   g_coordinates := JArr [JArr [JNum 1; JNum 2]; JArr [JNum 3; JNum 4]] |}).
Proof.
  intros Hy Hc. split; [by apply polygon_row_push|split].
  - intros w Hdraw. rewrite step_PolygonSheet.
    assert (collection [row] = Normal [row_feature row coords]) as Hrows.
    { apply collection_Normal. split.
      - simpl. by rewrite (polygon_row_push _ _ _ Hy Hc).
      - unfold drawable. simpl. by rewrite Hdraw. }
    destruct (addPolygons_normal [row] w _ Hrows) as (w' & Hrun & _ & _ & _ & _ & _ & Hsf).
    by rewrite Hrun.
  - intros other line. eexists. split.
    + apply polygon_row_push.
      * unfold line. by rewrite lookup_insert_eq.
      * unfold line. rewrite lookup_insert_ne, lookup_insert_eq by done.
        simpl. vm_compute. reflexivity.
    + simpl. unfold line.
      by rewrite lookup_insert_ne, lookup_insert_ne, lookup_insert_eq.
Qed.

(** ** The slots refer to layers of their own kind *)

Lemma polygon_insert_ne w l h :
  wf w → is_polygon_layer w h → ∃ ch, <[lastId w := l]> (heap w) !! h = Some (GeoJSON ch).
Proof.
  intros Hw [ch Hch]. exists ch. rewrite lookup_insert_ne; [done|].
  pose proof (wf_heap w Hw h (mk_is_Some _ _ Hch)). lia.
Qed.

Lemma group_insert_ne w l h :
  wf w → is_point_group w h → ∃ ms, <[lastId w := l]> (heap w) !! h = Some (LayerGroup ms).
Proof.
  intros Hw [ms Hms]. exists ms. rewrite lookup_insert_ne; [done|].
  pose proof (wf_heap w Hw h (mk_is_Some _ _ Hms)). lia.
Qed.

Lemma slots_ok_init : slots_ok page_loaded.
Proof. by split. Qed.

Lemma slots_ok_step w ev : wf w → slots_ok w → slots_ok (step w ev).
Proof.
  intros Hw [Hp Hg]. destruct ev as [data|data| | |m h i].
  - rewrite step_PolygonSheet, addPolygons_run.
    destruct (collection data) as [fs|e]; [|by split].
    split; unfold is_polygon_layer, is_point_group; simpl.
    + intros h [= <-]. eexists. apply lookup_insert_eq.
    + intros h Hh. by apply group_insert_ne, Hg.
  - rewrite step_PointSheet, addPoints_run.
    split; unfold is_polygon_layer, is_point_group; simpl.
    + intros h Hh. by apply polygon_insert_ne, Hp.
    + intros h [= <-]. eexists. apply lookup_insert_eq.
  - split; unfold is_polygon_layer, is_point_group; simpl.
    + intros h Hh. by apply polygon_insert_ne, Hp.
    + intros h Hh. by apply group_insert_ne, Hg.
  - by split.
  - rewrite step_OnFeature. case_decide; [|by split].
    destruct (path_at w h i) as [this|]; [|by split].
    assert (∀ style, slots_ok (set_heap (alter (restyle style i) h) w)) as Hre.
    { intros style. split; unfold is_polygon_layer, is_point_group; simpl.
      - intros h' [ch Hch]%Hp. rewrite lookup_alter. case_decide; [subst|by exists ch].
        rewrite Hch. simpl. by eexists.
      - intros h' [ms Hms]%Hg. rewrite lookup_alter. case_decide; [subst|by exists ms].
        rewrite Hms. simpl. by eexists. }
    destruct m; [apply Hre|apply Hre|].
    unfold clicked, written. destruct (p_type _), (p_myinfo _); by split.
Qed.

Lemma slots_ok_reachable evs : slots_ok (run evs page_loaded).
Proof.
  induction evs as [|ev evs IH] using rev_ind; [apply slots_ok_init|].
  rewrite run_snoc. apply slots_ok_step; [apply wf_reachable|done].
Qed.

(** A handle in a slot was stamped before the next one. *)
Lemma polygon_slot_lt evs h :
  polygonLayer (run evs page_loaded) = Some h → h < lastId (run evs page_loaded).
Proof.
  intros [ch Hch]%(polygon_slot_ok _ (slots_ok_reachable evs)).
  apply (wf_heap _ (wf_reachable evs)). by eexists.
Qed.

(** After a failed call the map shows no polygon layer. *)
Lemma addPolygons_throw_clears w data e :
  wf w →
  collection data = Throw e →
  step w (PolygonSheet data) = set_on_map (detach (polygonLayer w)) w
  ∧ polygon_layers_on_map (step w (PolygonSheet data)) = ∅.
Proof.
  intros Hw He. rewrite step_PolygonSheet, addPolygons_run, He. simpl.
  split; [done|]. apply elem_of_equiv_empty_L. intros h.
  unfold polygon_layers_on_map. rewrite elem_of_filter. simpl.
  intros [Hk [Hin Hne]%elem_of_detach]. apply Hne. by apply (wf_polygon w Hw).
Qed.

(** ** The claims about failing calls *)

(** C2. If some included row of the sheet has a geometry text that
    [JSON.parse] rejects, the loop of [addPolygons] throws and there is no
    feature array at all; the call creates no layer, attaches none and
    writes no slot; its only effect is the removal of the slot's layer done
    before the loop, after which the map shows no polygon layer. *)
Theorem addPolygons_malformed_geometry_aborts
    (evs : list event) (data : list Row) (row : Row) :
  row ∈ data →
  row !! "include" = Some "y" →
  JSON_parse (ToString (row !! "geometry")) = None →
  let w := run evs page_loaded in
  ∃ e, polygon_rows data [] = Throw e
       ∧ addPolygons data w = (Throw e, set_on_map (detach (polygonLayer w)) w)
       ∧ lastId (step w (PolygonSheet data)) = lastId w
       ∧ heap (step w (PolygonSheet data)) = heap w
       ∧ on_map (step w (PolygonSheet data)) = detach (polygonLayer w) (on_map w)
       ∧ polygon_layers_on_map (step w (PolygonSheet data)) = ∅.
Proof.
  intros Hin Hy Hbad w.
  destruct (polygon_rows_throw data row Hin Hy Hbad) as [e He].
  exists e. split; [done|]. apply collection_Throw in He.
  destruct (addPolygons_throw_clears w data e (wf_reachable evs) He) as [Hstep Hnone].
  split; [by rewrite addPolygons_run, He|].
  by rewrite Hnone, Hstep.
Qed.

(** C10. A call of [addPolygons] that aborts on a geometry text leaves the
    polygon slot as it was: it still refers to the previous layer, which is
    no longer on the map.  The next call that completes, its loop having
    completed on features Leaflet can draw, stamps a new layer, different
    from the stale one, stores it in the slot and shows it as the only
    polygon layer, with exactly its own features. *)
Theorem failed_addPolygons_keeps_slot
    (evs : list event) (data next : list Row) (row : Row) (h : handle)
    (fs : list Feature) :
  row ∈ data →
  row !! "include" = Some "y" →
  JSON_parse (ToString (row !! "geometry")) = None →
  polygonLayer (run evs page_loaded) = Some h →
  polygon_rows next [] = Normal fs →
  drawable fs = true →
  let w := run evs page_loaded in
  let w1 := step w (PolygonSheet data) in
  let w2 := step w1 (PolygonSheet next) in
  polygonLayer w1 = Some h
  ∧ (h ∉ on_map w1)
  ∧ lastId w1 = lastId w
  ∧ polygonLayer w2 = Some (lastId w)
  ∧ lastId w ≠ h
  ∧ on_map w2 = {[lastId w]} ∪ (on_map w ∖ {[h]})
  ∧ polygon_layers_on_map w2 = {[lastId w]}
  ∧ visible_features w2 = fs
  ∧ slot_features w2 = Some fs.
Proof.
  intros Hin Hy Hbad Hslot Hrows Hdraw w w1 w2.
  assert (collection next = Normal fs) as Hfs by (by apply collection_Normal).
  destruct (polygon_rows_throw data row Hin Hy Hbad) as [e He%collection_Throw].
  destruct (addPolygons_throw_clears w data e (wf_reachable evs) He) as [Hstep _].
  fold w1 in Hstep.
  assert (wf w1) as Hw1 by apply wf_step, wf_reachable.
  pose proof (polygon_slot_lt evs h Hslot) as Hlt. fold w in Hslot, Hlt.
  destruct (addPolygons_installs next w1 fs Hw1 Hfs) as [Hone Hvis]. fold w2 in Hone, Hvis.
  destruct (addPolygons_normal next w1 fs Hfs) as (w2' & Hrun & _ & Hs2 & _ & _ & Hm2 & Hsf).
  assert (w2 = w2') as <- by (unfold w2; by rewrite step_PolygonSheet, Hrun).
  rewrite Hstep in *. simpl in *. rewrite Hslot in *. simpl in *.
  repeat split; try done.
  - apply not_elem_of_difference. right. by apply elem_of_singleton.
  - lia.
  - rewrite Hm2. f_equal. apply set_eq. intros k.
    rewrite !elem_of_difference. tauto.
Qed.

(** ** The claims about the two slots *)

Lemma addPoints_installs data w :
  wf w →
  point_groups_on_map (step w (PointSheet data)) = {[lastId w]}.
Proof.
  intros Hw. pose proof (wf_addPoints data w Hw) as Hw'. revert Hw'.
  rewrite step_PointSheet, addPoints_run. simpl. intros Hw'.
  apply set_eq. intros h. unfold point_groups_on_map.
  rewrite elem_of_filter, elem_of_singleton. split.
  - intros [Hk Hin]. pose proof (wf_points _ Hw' h Hin Hk) as Hs. simpl in Hs. congruence.
  - intros ->. split.
    + eexists. simpl. apply lookup_insert_eq.
    + simpl. apply elem_of_union_l. by apply elem_of_singleton.
Qed.

(** C8. In every state the script can reach the map shows at most one
    polygon layer and at most one point group.  A polygon call shows no
    polygon layer but the one it stamps, a point call no point group but the
    one it stamps: a completing call takes its slot's layer off the map
    and puts the newly stamped one on.  The second of two polygon calls in a
    row, when it completes (its loop completes and Leaflet can draw its
    features), leaves exactly its own features visible; and neither callback
    writes the other's slot. *)
Theorem one_layer_per_kind
    (evs : list event) (first second points : list Row) (fs : list Feature) :
  polygon_rows second [] = Normal fs →
  drawable fs = true →
  let w := run evs page_loaded in
  (size (polygon_layers_on_map w) ≤ 1)%nat
  ∧ (size (point_groups_on_map w) ≤ 1)%nat
  ∧ polygon_layers_on_map (step w (PolygonSheet first)) ⊆ {[lastId w]}
  ∧ point_groups_on_map (step w (PointSheet points)) = {[lastId w]}
  ∧ (lastId w ∉ on_map w)
  ∧ on_map (step w (PolygonSheet second))
    = {[lastId w]} ∪ detach (polygonLayer w) (on_map w)
  ∧ on_map (step w (PointSheet points))
    = {[lastId w]} ∪ detach (pointGroupLayer w) (on_map w)
  ∧ polygon_layers_on_map (step w (PolygonSheet second)) = {[lastId w]}
  ∧ visible_features (run [PolygonSheet first; PolygonSheet second] w) = fs
  ∧ pointGroupLayer (step w (PolygonSheet first)) = pointGroupLayer w
  ∧ polygonLayer (step w (PointSheet points)) = polygonLayer w.
Proof.
  intros Hrows Hdraw w. pose proof (wf_reachable evs) as Hw. fold w in Hw.
  assert (collection second = Normal fs) as Hfs by (by apply collection_Normal).
  split; [|split; [|split; [|split; [|split; [|split; [|split; [|split; [|split; [|split]]]]]]]]].
  - eapply size_slot. by apply polygon_layers_slot.
  - eapply size_slot. by apply point_groups_slot.
  - destruct (collection first) as [fs1|e] eqn:E1.
    + by rewrite (proj1 (addPolygons_installs first w fs1 Hw E1)).
    + rewrite (proj2 (addPolygons_throw_clears w first e Hw E1)). apply empty_subseteq.
  - by apply addPoints_installs.
  - intros Hin%(wf_map w Hw). lia.
  - by rewrite step_PolygonSheet, addPolygons_run, Hfs.
  - by rewrite step_PointSheet, addPoints_run.
  - by apply (addPolygons_installs second w fs).
  - simpl. apply addPolygons_installs; [by apply wf_step|done].
  - rewrite step_PolygonSheet, addPolygons_run.
    by destruct (collection first).
  - by rewrite step_PointSheet, addPoints_run.
Qed.

(** ** The claims about the side panel *)

(** C3, amended.  A click on a feature the map shows, whose [type] and
    [myinfo] properties are present, runs the feature's handler only: the
    event comes back stopped, the map's handler does not run, the title is
    the feature's [type], the body its [myinfo], and the panel is open.  A
    click on the map closes the panel and changes nothing else; the title
    and the body stay as they were. *)
Theorem panel_click_behaviour
    (w : World) (h : handle) (i : nat) (this : PathLayer) (label info : string) :
  h ∈ on_map w →
  path_at w h i = Some this →
  p_type (f_properties (feature this)) = Some label →
  p_myinfo (f_properties (feature this)) = Some info →
  click this {| target := (h, i); stopped := false |} w
    = (Normal {| target := (h, i); stopped := true |}, step w (OnFeature Press h i))
  ∧ panel_open (step w (OnFeature Press h i)) = Some panelID
  ∧ sidebar_title (step w (OnFeature Press h i)) = label
  ∧ sidebar_content (step w (OnFeature Press h i)) = info
  ∧ step w MapClick = set_panel_open None w
  ∧ panel_open (step w MapClick) = None
  ∧ sidebar_title (step w MapClick) = sidebar_title w
  ∧ sidebar_content (step w MapClick) = sidebar_content w.
Proof.
  intros Hin Hthis Hlabel Hinfo.
  rewrite step_OnFeature, decide_True, Hthis by done.
  rewrite click_run. unfold clicked, written. rewrite Hlabel, Hinfo.
  by repeat split.
Qed.

(** ** The claims about [addPoints] *)

Lemma group_markers_addPoints data w :
  group_markers (step w (PointSheet data)) = map row_marker (placed data).
Proof.
  rewrite step_PointSheet, addPoints_run. unfold group_markers. simpl.
  by rewrite lookup_insert_eq.
Qed.

Lemma placed_prefix data : ∃ rest, data = placed data ++ rest.
Proof.
  induction data as [|row data [rest IH]]; [by exists []|]. simpl.
  destruct (valid_LatLng _ _).
  - exists rest. simpl. by rewrite <- IH.
  - by eexists.
Qed.

(** The rows that get a marker are those before the first rejected row. *)
Lemma placed_split made rest :
  Forall (λ row : Row, valid_LatLng (row !! "lat") (row !! "long") = true) made →
  from_option (λ row : Row, valid_LatLng (row !! "lat") (row !! "long") = false)
              True (head rest) →
  placed (made ++ rest) = made
  ∧ (all_placed (made ++ rest) = true ↔ rest = []).
Proof.
  intros Hmade Hrest. induction Hmade as [|row made Hrow _ [IH1 IH2]].
  - simpl. destruct rest as [|row rest]; [done|]. simpl in *.
    rewrite Hrest. simpl. by split.
  - simpl. unfold all_placed in *. simpl. rewrite Hrow, IH1. simpl.
    by split.
Qed.

Lemma ToString_default x : ToString x = default "undefined" x.
Proof. by destruct x. Qed.

(** C6, amended.  [addPoints] puts the new group on the map and in the slot,
    then makes markers row by row until Leaflet rejects a position.  For
    the rows [made] before the first rejected one (all rows when [rest] is
    empty) the group holds one marker per row, in the order of the rows:
    it stands at the row's [lat] and [long] as they are, its popup is the
    script's markup around the row's [Type], [Title] and [Comments], a
    missing one reading undefined, and its icon is asked for with the row's
    [Marker_Icon] as name, the row's [Color] as colour and the prefix
    ["fa"].  The call completes exactly when no row is rejected.  A row with
    [lat] 30.1, [long] -90.2, [Marker_Icon] flag and [Color] red, when
    Leaflet takes the position, gives a marker at (30.1, -90.2) with the
    icon flag / red. *)
Theorem addPoints_markers (made rest : list Row) (w : World) :
  Forall (λ row : Row, valid_LatLng (row !! "lat") (row !! "long") = true) made →
  from_option (λ row : Row, valid_LatLng (row !! "lat") (row !! "long") = false)
              True (head rest) →
  let w' := step w (PointSheet (made ++ rest)) in
  pointGroupLayer w' = Some (lastId w)
  ∧ lastId w ∈ on_map w'
  ∧ length (group_markers w') = length made
  ∧ group_markers w'
    = map (λ row : Row,
             {| m_latlng := (row !! "lat", row !! "long");
                m_popup := Some ("<h2>" ++ default "undefined" (row !! "Type")
                                 ++ "</h2><br>"
                                 ++ default "undefined" (row !! "Title") ++ "<br>"
                                 ++ default "undefined" (row !! "Comments"))%string;
                m_icon := Some {| icon := row !! "Marker_Icon";
                                  iconColor := "white";
                                  markerColor := row !! "Color";
                                  prefix := "fa";
                                  extraClasses := "flip-horizontal" |} |}) made
  ∧ (fst (addPoints (made ++ rest) w) = Normal tt ↔ rest = [])
  ∧ (rest ≠ [] → fst (addPoints (made ++ rest) w) = Throw LeafletError)
  ∧ (∀ other : Row,
       let row := <["lat" := "30.1"]> (<["long" := "-90.2"]>
                    (<["Marker_Icon" := "flag"]> (<["Color" := "red"]> other))) in
       valid_LatLng (Some "30.1") (Some "-90.2") = true →
       ∃ m ic, group_markers (step w (PointSheet [row])) = [m]
               ∧ m_latlng m = (Some "30.1", Some "-90.2")
               ∧ m_icon m = Some ic
               ∧ icon ic = Some "flag"
               ∧ markerColor ic = Some "red"
               ∧ prefix ic = "fa").
Proof.
  intros Hmade Hrest w'. unfold w'.
  destruct (placed_split made rest Hmade Hrest) as [Hplaced Hall].
  rewrite group_markers_addPoints, Hplaced.
  split; [|split; [|split; [|split; [|split; [|split]]]]].
  - by rewrite step_PointSheet, addPoints_run.
  - rewrite step_PointSheet, addPoints_run. simpl.
    apply elem_of_union_l. by apply elem_of_singleton.
  - apply length_map.
  - apply map_ext. intros row. unfold row_marker.
    by rewrite !ToString_default.
  - rewrite addPoints_run. simpl. unfold points_completion. rewrite <- Hall.
    by destruct (all_placed (made ++ rest)).
  - intros Hne. rewrite addPoints_run. simpl. unfold points_completion.
    destruct (all_placed (made ++ rest)); [|done].
    by destruct Hne; apply Hall.
  - intros other Hvalid. rewrite group_markers_addPoints. simpl.
    rewrite lookup_insert_eq.
    rewrite (lookup_insert_ne _ "lat" "long"), lookup_insert_eq by done.
    rewrite Hvalid. simpl.
    do 2 eexists. split; [reflexivity|]. unfold row_marker. simpl.
    rewrite lookup_insert_eq.
    rewrite (lookup_insert_ne _ "lat" "long"), lookup_insert_eq by done.
    rewrite (lookup_insert_ne _ "lat" "Marker_Icon"),
      (lookup_insert_ne _ "long" "Marker_Icon"), lookup_insert_eq by done.
    rewrite (lookup_insert_ne _ "lat" "Color"), (lookup_insert_ne _ "long" "Color"),
      (lookup_insert_ne _ "Marker_Icon" "Color"), lookup_insert_eq by done.
    by repeat split.
Qed.

(** C9. Whatever the rows hold, every marker [addPoints] makes has an icon
    asked for with the glyph colour ["white"], the prefix ["fa"] and the
    extra class ["flip-horizontal"]; of its row only [Marker_Icon], as the
    glyph name, and [Color], as the marker's colour, reach the icon.  The
    markers are those of the rows before the first one Leaflet rejects. *)
Theorem marker_icon_constants (data : list Row) (w : World) :
  map m_icon (group_markers (step w (PointSheet data)))
  = map (λ row : Row,
           Some {| icon := row !! "Marker_Icon";
                   iconColor := "white";
                   markerColor := row !! "Color";
                   prefix := "fa";
                   extraClasses := "flip-horizontal" |}) (placed data)
  ∧ (∃ rest, data = placed data ++ rest)
  ∧ Forall (λ m, ∃ ic, m_icon m = Some ic
                       ∧ iconColor ic = "white"
                       ∧ prefix ic = "fa"
                       ∧ extraClasses ic = "flip-horizontal")
           (group_markers (step w (PointSheet data))).
Proof.
  rewrite group_markers_addPoints. split; [|split].
  - by rewrite map_map.
  - apply placed_prefix.
  - apply Forall_forall. intros m (row & -> & _)%list_elem_of_fmap.
    by eexists.
Qed.

(** ** The claims about hovering *)

Lemma style_absorb over over' :
  hover_style over ∪ hover_style over' = hover_style over.
Proof. destruct over, over'; vm_compute; reflexivity. Qed.

Lemma setStyle_absorb over over' p :
  setStyle (hover_style over) (setStyle (hover_style over') p)
  = setStyle (hover_style over) p.
Proof.
  unfold setStyle. simpl. f_equal.
  by rewrite (assoc_L (∪)), style_absorb.
Qed.

Lemma restyle_absorb over over' i l :
  restyle (hover_style over) i (restyle (hover_style over') i l)
  = restyle (hover_style over) i l.
Proof.
  destruct l as [| |ch|ms]; simpl; try done. f_equal.
  rewrite list_alter_alter_eq. apply list_alter_ext; [|done].
  intros p _. apply setStyle_absorb.
Qed.

Lemma step_hover w h i over :
  step w (hover_event h i over) =
  if decide (h ∈ on_map w) then
    match path_at w h i with
    | Some _ => set_heap (alter (restyle (hover_style over) i) h) w
    | None => w
    end
  else w.
Proof.
  unfold hover_event. rewrite step_OnFeature.
  case_decide; [|done]. destruct (path_at w h i); [|done]. by destruct over.
Qed.

Lemma path_at_restyle style w h i :
  path_at (set_heap (alter (restyle style i) h) w) h i
  = setStyle style <$> path_at w h i.
Proof.
  unfold path_at. simpl. rewrite lookup_alter_eq.
  destruct (heap w !! h) as [[| |ch|ms]|]; simpl; try done.
  apply list_lookup_alter_eq.
Qed.

(** A hover makes the one before it on the same path unobservable. *)
Lemma step_hover_absorb w h i over over' :
  step (step w (hover_event h i over')) (hover_event h i over)
  = step w (hover_event h i over).
Proof.
  rewrite (step_hover w h i over'), (step_hover w h i over).
  destruct (decide (h ∈ on_map w)) as [Hin|Hout].
  - destruct (path_at w h i) as [this|] eqn:Ethis.
    + rewrite step_hover. simpl. rewrite decide_True by done.
      rewrite path_at_restyle, Ethis. simpl.
      unfold set_heap. simpl. f_equal.
      rewrite alter_alter_eq. apply alter_ext.
      intros l _. apply restyle_absorb.
    + by rewrite step_hover, decide_True, Ethis.
  - by rewrite step_hover, decide_False.
Qed.

Lemma run_hovers w h i hovers last :
  run (map (hover_event h i) (hovers ++ [last])) w = step w (hover_event h i last).
Proof.
  revert w. induction hovers as [|over hovers IH]; intros w; [done|].
  simpl. rewrite IH. apply step_hover_absorb.
Qed.

Lemma styled_init : styled page_loaded.
Proof.
  intros h i p. unfold path_at. simpl.
  destruct (decide (h = 0)) as [->|Hne].
  - by rewrite lookup_singleton_eq.
  - by rewrite lookup_singleton_ne.
Qed.

Lemma path_at_insert w h h' i l :
  path_at (set_heap (insert h l) w) h' i =
  if decide (h = h') then match l with GeoJSON ch => ch !! i | _ => None end
  else path_at w h' i.
Proof.
  unfold path_at. simpl. case_decide; [subst|].
  - by rewrite lookup_insert_eq.
  - by rewrite lookup_insert_ne.
Qed.

Lemma styled_insert w h l :
  styled w →
  (∀ ch p, l = GeoJSON ch → p ∈ ch → ∃ over, options p = hover_style over) →
  styled (set_heap (insert h l) w).
Proof.
  intros Hw Hl h' i p. rewrite path_at_insert. case_decide; [|apply Hw].
  destruct l as [| |ch|ms]; try done.
  intros Hp%list_elem_of_lookup_2. by apply (Hl ch).
Qed.

Lemma styled_step w ev : styled w → styled (step w ev).
Proof.
  intros Hw. destruct ev as [data|data| | |m h i].
  - rewrite step_PolygonSheet, addPolygons_run.
    destruct (collection data) as [fs|e]; [|apply Hw].
    intros h i p Hp. apply (styled_insert w (lastId w) (GeoJSON (map new_path fs)) Hw)
      with (h := h) (i := i); [|done].
    intros ch p' [= <-] (f & -> & _)%list_elem_of_fmap.
    exists false. unfold new_path, setStyle. simpl. apply (right_id_L ∅ (∪)).
  - rewrite step_PointSheet, addPoints_run.
    intros h i p Hp. by apply (styled_insert w (lastId w) (LayerGroup (map row_marker (placed data))) Hw)
      with (h := h) (i := i).
  - intros h i p Hp. by apply (styled_insert w (lastId w) Boundary Hw) with (h := h) (i := i).
  - apply Hw.
  - rewrite step_OnFeature. case_decide; [|done].
    destruct (path_at w h i) as [this|] eqn:Ethis; [|done].
    assert (∀ over, styled (set_heap (alter (restyle (hover_style over) i) h) w)) as Hre.
    { intros over h' i' p. destruct (decide (h' = h)) as [->|Hne].
      - destruct (decide (i' = i)) as [->|Hi].
        + rewrite path_at_restyle, Ethis. intros [= <-]. exists over. simpl.
          destruct (Hw h i this Ethis) as [over' ->]. apply style_absorb.
        + unfold path_at. simpl. rewrite lookup_alter_eq.
          specialize (Hw h i' p). unfold path_at in Hw.
          destruct (heap w !! h) as [[| |ch|ms]|]; simpl; try done.
          by rewrite list_lookup_alter_ne.
      - unfold path_at. simpl. rewrite lookup_alter_ne by done. apply Hw. }
    destruct m; [apply (Hre false)|apply (Hre true)|].
    intros h' i' p. unfold clicked, written.
    destruct (p_type _), (p_myinfo _); apply Hw.
Qed.

Lemma styled_reachable evs : styled (run evs page_loaded).
Proof.
  induction evs as [|ev evs IH] using rev_ind; [apply styled_init|].
  rewrite run_snoc. by apply styled_step.
Qed.

(** C7. On a path the map shows, pointer-out leaves exactly the default
    style (colour [#2ca25f], fill [#99d8c9], weight 2) and pointer-over
    exactly the highlight style (colour [green], fill [#2ca25f], weight 4).
    Each handler is idempotent, and after any sequence of hover events on
    the path the whole state is the one the last event alone produces. *)
Theorem hover_styles
    (evs : list event) (h : handle) (i : nat) (this : PathLayer)
    (hovers : list bool) (last : bool) :
  let w := run evs page_loaded in
  h ∈ on_map w →
  path_at w h i = Some this →
  path_at (step w (OnFeature Out h i)) h i
    = Some {| feature := feature this; options := polygonStyle |}
  ∧ path_at (step w (OnFeature Over h i)) h i
    = Some {| feature := feature this; options := polygonHoverStyle |}
  ∧ polygonStyle
    = list_to_map [("color", SStr "#2ca25f"); ("fillColor", SStr "#99d8c9");
                   ("weight", SNum 2)]
  ∧ polygonHoverStyle
    = list_to_map [("color", SStr "green"); ("fillColor", SStr "#2ca25f");
                   ("weight", SNum 4)]
  ∧ step (step w (hover_event h i last)) (hover_event h i last)
    = step w (hover_event h i last)
  ∧ run (map (hover_event h i) (hovers ++ [last])) w = step w (hover_event h i last)
  ∧ path_at (run (map (hover_event h i) (hovers ++ [last])) w) h i
    = Some {| feature := feature this; options := hover_style last |}.
Proof.
  intros w Hin Hthis.
  destruct (styled_reachable evs h i this Hthis) as [over Hover].
  assert (∀ b, path_at (step w (hover_event h i b)) h i
               = Some {| feature := feature this; options := hover_style b |}) as Hb.
  { intros b. rewrite step_hover, decide_True, Hthis by done.
    rewrite path_at_restyle, Hthis. simpl. unfold setStyle. f_equal. f_equal.
    rewrite Hover. apply style_absorb. }
  split; [apply (Hb false)|]. split; [apply (Hb true)|].
  split; [done|]. split; [done|].
  split; [apply step_hover_absorb|].
  split; [apply run_hovers|].
  rewrite run_hovers. apply Hb.
Qed.

(** * Further properties of the callbacks and handlers *)

(** ** When the row loop completes *)

Lemma polygon_rows_normal_iff data :
  (∃ fs, polygon_rows data [] = Normal fs)
  ↔ Forall (λ row : Row, row !! "include" = Some "y" →
                         is_Some (JSON_parse (ToString (row !! "geometry")))) data.
Proof.
  induction data as [|row rest IH].
  - split; [constructor|]. intros _. by exists [].
  - rewrite polygon_rows_cons, Forall_cons, <- IH. split.
    + destruct (polygon_row row []) as [mid|e] eqn:Erow; [|by intros [? ?]].
      destruct (polygon_rows rest []) as [fs|e]; [|by intros [? ?]].
      intros _. split; [|by eexists].
      intros Hy. destruct (JSON_parse (ToString (row !! "geometry"))) eqn:Ec; [done|].
      by rewrite (polygon_row_throw _ _ Hy Ec) in Erow.
    + intros [Hrow [fs ->]].
      destruct (decide (row !! "include" = Some "y")) as [Hy|Hn].
      * destruct (Hrow Hy) as [coords Hc].
        rewrite (polygon_row_push _ _ _ Hy Hc). by eexists.
      * rewrite (polygon_row_skip _ _ Hn). by eexists.
Qed.

Lemma drawable_app fs1 fs2 : drawable (fs1 ++ fs2) = drawable fs1 && drawable fs2.
Proof. apply forallb_app. Qed.

Lemma collection_normal_iff data :
  (∃ fs, polygon_rows data [] = Normal fs ∧ drawable fs = true)
  ↔ Forall (λ row : Row, row !! "include" = Some "y" →
              ∃ coords, JSON_parse (ToString (row !! "geometry")) = Some coords
                        ∧ path_geometry {| g_type := row !! "geotype";
                                           g_coordinates := coords |} = true) data.
Proof.
  induction data as [|row rest IH].
  - split; [constructor|]. intros _. by exists [].
  - rewrite polygon_rows_cons, Forall_cons, <- IH. split.
    + destruct (polygon_row row []) as [mid|e] eqn:Erow; [|by intros (? & ? & ?)].
      destruct (polygon_rows rest []) as [fs|e]; [|by intros (? & ? & ?)].
      intros (fs' & [= <-] & Hd). rewrite drawable_app in Hd.
      apply andb_prop in Hd as [Hmid Hfs]. split; [|by exists fs].
      intros Hy. destruct (JSON_parse (ToString (row !! "geometry"))) as [coords|] eqn:Ec.
      * exists coords. split; [done|].
        rewrite (polygon_row_push _ _ _ Hy Ec) in Erow. injection Erow as <-.
        unfold drawable in Hmid. simpl in Hmid. by apply andb_prop in Hmid as [? _].
      * by rewrite (polygon_row_throw _ _ Hy Ec) in Erow.
    + intros [Hrow (fs & -> & Hd)].
      destruct (decide (row !! "include" = Some "y")) as [Hy|Hn].
      * destruct (Hrow Hy) as (coords & Hc & Hg).
        rewrite (polygon_row_push _ _ _ Hy Hc). eexists. split; [done|].
        rewrite drawable_app, Hd. unfold drawable. simpl. by rewrite Hg.
      * rewrite (polygon_row_skip _ _ Hn). by exists fs.
Qed.

(** X1. [addPolygons] completes exactly when, for every included row, the
    geometry text parses and Leaflet can draw the geometry it gives with the
    row's [geotype].  The geometry of a row that is not included is never
    looked at, so it may be anything. *)
Theorem addPolygons_completes_iff (data : list Row) (w : World) :
  (∃ w', addPolygons data w = (Normal tt, w'))
  ↔ Forall (λ row : Row, row !! "include" = Some "y" →
              ∃ coords, JSON_parse (ToString (row !! "geometry")) = Some coords
                        ∧ path_geometry {| g_type := row !! "geotype";
                                           g_coordinates := coords |} = true) data.
Proof.
  rewrite <- collection_normal_iff, addPolygons_run. split.
  - destruct (collection data) as [fs|e] eqn:E; [|by intros [? ?]].
    intros _. exists fs. by apply collection_Normal.
  - intros (fs & Hfs). apply collection_Normal in Hfs as ->. by eexists.
Qed.

(** X2. An included row without a [geometry] column, or with an empty one,
    aborts the call: [JSON.parse] is handed [undefined] or the empty text and
    throws.  The slot and the layer objects stay as they were. *)
Theorem addPolygons_missing_geometry_aborts (data : list Row) (row : Row) (w : World) :
  row ∈ data →
  row !! "include" = Some "y" →
  row !! "geometry" = None ∨ row !! "geometry" = Some "" →
  ∃ e, addPolygons data w = (Throw e, set_on_map (detach (polygonLayer w)) w)
       ∧ polygon_rows data [] = Throw e.
Proof.
  intros Hin Hy Hg.
  assert (JSON_parse (ToString (row !! "geometry")) = None) as Hbad.
  { destruct Hg as [-> | ->]; vm_compute; reflexivity. }
  destruct (polygon_rows_throw data row Hin Hy Hbad) as [e He].
  exists e. by rewrite addPolygons_run, (collection_Throw _ _ He).
Qed.

Lemma polygon_rows_none_included data :
  Forall (λ row : Row, row !! "include" ≠ Some "y") data →
  polygon_rows data [] = Normal [].
Proof.
  induction 1 as [|row rest Hn _ IH]; [done|].
  by rewrite polygon_rows_cons, (polygon_row_skip _ _ Hn), IH.
Qed.

(** X3. A sheet without an included row, the empty sheet among them, still
    replaces the layer: the call completes, and the one polygon layer on the
    map is a new layer without features. *)
Theorem addPolygons_nothing_included (evs : list event) (data : list Row) :
  Forall (λ row : Row, row !! "include" ≠ Some "y") data →
  let w := run evs page_loaded in
  let w' := step w (PolygonSheet data) in
  polygonLayer w' = Some (lastId w)
  ∧ heap w' !! lastId w = Some (GeoJSON [])
  ∧ polygon_layers_on_map w' = {[lastId w]}
  ∧ slot_features w' = Some []
  ∧ visible_features w' = [].
Proof.
  intros Hrows%polygon_rows_none_included w w'.
  assert (collection data = Normal []) as Hnone by (by apply collection_Normal).
  destruct (addPolygons_installs data w [] (wf_reachable evs) Hnone) as [Hone Hvis].
  destruct (addPolygons_normal data w [] Hnone) as (w1 & Hrun & _ & Hs & _ & Hh & _ & Hsf).
  assert (step w (PolygonSheet data) = w1) as Hw1 by (by rewrite step_PolygonSheet, Hrun).
  unfold w'. rewrite Hw1 in *.
  split; [done|]. split; [by rewrite Hh, lookup_insert_eq|].
  by split; [|split].
Qed.

(** ** A point row Leaflet rejects *)

(** X4. A point row whose position Leaflet rejects (a row without [lat] or
    [long], say) aborts [addPoints] at that row.  By then the old group is
    off the map and the new one is on the map and in the slot, so the map
    is left with the markers of the rows before the rejected one, and
    nothing of the rows after it. *)
Theorem addPoints_rejected_position
    (evs : list event) (pre post : list Row) (row : Row) :
  Forall (λ row : Row, valid_LatLng (row !! "lat") (row !! "long") = true) pre →
  valid_LatLng (row !! "lat") (row !! "long") = false →
  let w := run evs page_loaded in
  let w' := step w (PointSheet (pre ++ row :: post)) in
  addPoints (pre ++ row :: post) w = (Throw LeafletError, w')
  ∧ pointGroupLayer w' = Some (lastId w)
  ∧ on_map w' = {[lastId w]} ∪ detach (pointGroupLayer w) (on_map w)
  ∧ point_groups_on_map w' = {[lastId w]}
  ∧ group_markers w' = group_markers (step w (PointSheet pre))
  ∧ length (group_markers w') = length pre.
Proof.
  intros Hpre Hrow w w'.
  destruct (placed_split pre (row :: post) Hpre Hrow) as [Hplaced Hall].
  destruct (placed_split pre [] Hpre I) as [Hplaced' _].
  rewrite app_nil_r in Hplaced'.
  assert (points_completion (pre ++ row :: post) = Throw LeafletError) as Hthrow.
  { unfold points_completion. destruct (all_placed _); [|done]. by destruct Hall as [Hnil _]; specialize (Hnil eq_refl). }
  split; [|split; [|split; [|split; [|split]]]].
  - unfold w'. rewrite step_PointSheet, addPoints_run, Hthrow. done.
  - unfold w'. by rewrite step_PointSheet, addPoints_run.
  - unfold w'. by rewrite step_PointSheet, addPoints_run.
  - apply addPoints_installs, wf_reachable.
  - unfold w'. by rewrite !group_markers_addPoints, Hplaced, Hplaced'.
  - unfold w'. by rewrite group_markers_addPoints, Hplaced, length_map.
Qed.

(** ** Layer objects over time *)

Lemma same_layer_refl l : same_layer l l.
Proof. by destruct l. Qed.

Lemma same_layer_trans l1 l2 l3 : same_layer l1 l2 → same_layer l2 l3 → same_layer l1 l3.
Proof.
  destruct l1, l2, l3; simpl; try congruence.
Qed.

Lemma map_feature_alter_setStyle style i ch :
  map feature (alter (setStyle style) i ch) = map feature ch.
Proof.
  apply list_eq. intros j. rewrite !list_lookup_fmap, list_lookup_alter.
  case_decide; [subst|done]. by destruct (ch !! j).
Qed.

Lemma same_layer_restyle style i l : same_layer l (restyle style i l).
Proof.
  destruct l; simpl; try done. by rewrite map_feature_alter_setStyle.
Qed.

Lemma clicked_frame this w :
  lastId (clicked this w) = lastId w
  ∧ heap (clicked this w) = heap w
  ∧ on_map (clicked this w) = on_map w
  ∧ polygonLayer (clicked this w) = polygonLayer w
  ∧ pointGroupLayer (clicked this w) = pointGroupLayer w.
Proof. unfold clicked, written. by destruct (p_type _), (p_myinfo _). Qed.

Lemma step_heap w ev h l :
  wf w → heap w !! h = Some l →
  ∃ l', heap (step w ev) !! h = Some l' ∧ same_layer l l'.
Proof.
  intros Hw Hl. pose proof (wf_heap w Hw h (mk_is_Some _ _ Hl)) as Hlt.
  destruct ev as [data|data| | |m h0 i].
  - rewrite step_PolygonSheet, addPolygons_run.
    destruct (collection data); simpl.
    + exists l. rewrite lookup_insert_ne by lia. auto using same_layer_refl.
    + exists l. auto using same_layer_refl.
  - rewrite step_PointSheet, addPoints_run. simpl.
    exists l. rewrite lookup_insert_ne by lia. auto using same_layer_refl.
  - simpl. exists l. rewrite lookup_insert_ne by lia. auto using same_layer_refl.
  - exists l. auto using same_layer_refl.
  - rewrite step_OnFeature. case_decide; [|exists l; auto using same_layer_refl].
    destruct (path_at w h0 i) as [this|]; [|exists l; auto using same_layer_refl].
    assert (∀ style, ∃ l', heap (set_heap (alter (restyle style i) h0) w) !! h = Some l'
                           ∧ same_layer l l') as Hre.
    { intros style. simpl. rewrite lookup_alter. case_decide; [subst|].
      - rewrite Hl. simpl. eauto using same_layer_restyle.
      - eauto using same_layer_refl. }
    destruct m; [apply Hre|apply Hre|].
    exists l. rewrite (proj1 (proj2 (clicked_frame this w))). auto using same_layer_refl.
Qed.

Lemma run_heap evs w h l :
  wf w → heap w !! h = Some l →
  ∃ l', heap (run evs w) !! h = Some l' ∧ same_layer l l'.
Proof.
  revert w l. induction evs as [|ev evs IH]; intros w l Hw Hl.
  - exists l. auto using same_layer_refl.
  - destruct (step_heap w ev h l Hw Hl) as (l1 & Hl1 & Hs1).
    destruct (IH (step w ev) l1 (wf_step w ev Hw) Hl1) as (l2 & Hl2 & Hs2).
    exists l2. eauto using same_layer_trans.
Qed.

(** X5. A layer object, once made, is never deleted and never given other
    contents, whatever happens later: a polygon layer keeps its features in
    their order (hovering changes only the style of its paths), a point group
    keeps its markers, the base map and the boundary stay what they are.  New
    sheets make new layers. *)
Theorem layer_contents_persist
    (evs later : list event) (h : handle) (l : layer) :
  heap (run evs page_loaded) !! h = Some l →
  ∃ l', heap (run (evs ++ later) page_loaded) !! h = Some l'
        ∧ same_layer l l'
        ∧ (∀ ch, l = GeoJSON ch → ∃ ch', l' = GeoJSON ch' ∧ map feature ch' = map feature ch)
        ∧ (∀ ms, l = LayerGroup ms → l' = LayerGroup ms).
Proof.
  intros Hl. rewrite run_app.
  destruct (run_heap later _ h l (wf_reachable evs) Hl) as (l' & Hl' & Hs).
  exists l'. split; [done|]. split; [done|]. split.
  - intros ch ->. destruct l' as [| |ch'|ms']; simpl in Hs; try done.
    by exists ch'.
  - intros ms ->. by destruct l'.
Qed.

(** ** The base map and the boundary *)

Lemma step_on_map_static w ev h l :
  wf w → slots_ok w →
  heap w !! h = Some l → is_static l = true →
  h ∈ on_map w → h ∈ on_map (step w ev).
Proof.
  intros Hw [Hp Hg] Hl Hst Hin.
  assert (polygonLayer w ≠ Some h) as Hnp.
  { intros [ch Hch]%Hp. rewrite Hl in Hch. by injection Hch as ->. }
  assert (pointGroupLayer w ≠ Some h) as Hng.
  { intros [ms Hms]%Hg. rewrite Hl in Hms. by injection Hms as ->. }
  destruct ev as [data|data| | |m h0 i].
  - rewrite step_PolygonSheet, addPolygons_run.
    destruct (collection data); simpl.
    + apply elem_of_union_r. by apply elem_of_detach.
    + by apply elem_of_detach.
  - rewrite step_PointSheet, addPoints_run. simpl.
    apply elem_of_union_r. by apply elem_of_detach.
  - simpl. by apply elem_of_union_r.
  - done.
  - rewrite step_OnFeature. case_decide; [|done].
    destruct (path_at w h0 i) as [this|]; [|done].
    destruct m; try done.
    by rewrite (proj1 (proj2 (proj2 (clicked_frame this w)))).
Qed.

Lemma same_layer_static l l' : same_layer l l' → is_static l = true → l' = l.
Proof. by destruct l, l'. Qed.

Lemma run_on_map_static evs w h l :
  wf w → slots_ok w →
  heap w !! h = Some l → is_static l = true →
  h ∈ on_map w →
  h ∈ on_map (run evs w) ∧ heap (run evs w) !! h = Some l.
Proof.
  revert w. induction evs as [|ev evs IH]; intros w Hw Hs Hl Hst Hin; [done|].
  simpl. destruct (step_heap w ev h l Hw Hl) as (l1 & Hl1 & Hsame).
  apply same_layer_static in Hsame as ->; [|done].
  apply IH; auto using wf_step, slots_ok_step.
  by apply (step_on_map_static w ev h l).
Qed.

(** X6. The script never takes the base map or the parish boundary off the
    map: once such a layer is shown it is shown after every later sheet,
    failed sheet and mouse event.  In particular the base map is always
    shown. *)
Theorem static_layers_stay
    (evs later : list event) (h : handle) (l : layer) :
  heap (run evs page_loaded) !! h = Some l →
  is_static l = true →
  h ∈ on_map (run evs page_loaded) →
  h ∈ on_map (run (evs ++ later) page_loaded)
  ∧ heap (run (evs ++ later) page_loaded) !! h = Some l
  ∧ 0 ∈ on_map (run (evs ++ later) page_loaded)
  ∧ heap (run (evs ++ later) page_loaded) !! 0 = Some TileLayer.
Proof.
  intros Hl Hst Hin. rewrite run_app.
  split; [|split].
  - by apply (run_on_map_static later _ h l);
      auto using wf_reachable, slots_ok_reachable.
  - by apply (run_on_map_static later _ h l);
      auto using wf_reachable, slots_ok_reachable.
  - rewrite <- run_app.
    apply (run_on_map_static (evs ++ later) page_loaded 0 TileLayer);
      [apply wf_init|apply slots_ok_init|apply lookup_singleton_eq|done|].
    unfold page_loaded. cbn [on_map]. by apply elem_of_singleton.
Qed.

(** ** What mouse events leave alone *)

Lemma slot_features_restyle style i h w :
  slot_features (set_heap (alter (restyle style i) h) w) = slot_features w.
Proof.
  unfold slot_features. simpl. destruct (polygonLayer w) as [g|]; [|done].
  rewrite lookup_alter. case_decide; [subst|done].
  destruct (heap w !! g) as [[| |ch|ms]|]; simpl; try done.
  by rewrite map_feature_alter_setStyle.
Qed.

Lemma group_markers_restyle style i h w :
  group_markers (set_heap (alter (restyle style i) h) w) = group_markers w.
Proof.
  unfold group_markers. simpl. destruct (pointGroupLayer w) as [g|]; [|done].
  rewrite lookup_alter. case_decide; [subst|done].
  by destruct (heap w !! g) as [[| |ch|ms]|].
Qed.

(** X7. No mouse event on a path adds, removes or replaces a layer or
    writes a slot, and none changes the features of the polygon layer or the
    markers of the point group.  Hovering leaves the panel as it is; a click
    on a path leaves every layer object, styles included, as it is. *)
Theorem mouse_events_frame (w : World) (m : mouse) (h : handle) (i : nat) (over : bool) :
  let w' := step w (OnFeature m h i) in
  lastId w' = lastId w
  ∧ on_map w' = on_map w
  ∧ polygonLayer w' = polygonLayer w
  ∧ pointGroupLayer w' = pointGroupLayer w
  ∧ slot_features w' = slot_features w
  ∧ group_markers w' = group_markers w
  ∧ panel_open (step w (hover_event h i over)) = panel_open w
  ∧ sidebar_title (step w (hover_event h i over)) = sidebar_title w
  ∧ sidebar_content (step w (hover_event h i over)) = sidebar_content w
  ∧ heap (step w (OnFeature Press h i)) = heap w.
Proof.
  intros w'. unfold w'. rewrite step_hover, !step_OnFeature.
  destruct (decide (h ∈ on_map w)) as [Hin|Hout]; [|by repeat split].
  destruct (path_at w h i) as [this|]; [|by repeat split].
  destruct (clicked_frame this w) as (Hc1 & Hc2 & Hc3 & Hc4 & Hc5).
  assert (slot_features (clicked this w) = slot_features w) as Hc6.
  { unfold slot_features. by rewrite Hc2, Hc4. }
  assert (group_markers (clicked this w) = group_markers w) as Hc7.
  { unfold group_markers. by rewrite Hc2, Hc5. }
  destruct m; repeat split;
    auto using slot_features_restyle, group_markers_restyle.
Qed.

(** X8. A mouse event on one path leaves every other path, of the same
    layer or of another, with the style it had. *)
Theorem other_paths_untouched
    (w : World) (m : mouse) (h h' : handle) (i i' : nat) :
  (h', i') ≠ (h, i) →
  path_at (step w (OnFeature m h i)) h' i' = path_at w h' i'.
Proof.
  intros Hne. rewrite step_OnFeature.
  case_decide; [|done]. destruct (path_at w h i) as [this|]; [|done].
  assert (∀ style, path_at (set_heap (alter (restyle style i) h) w) h' i'
                   = path_at w h' i') as Hre.
  { intros style. unfold path_at. simpl. rewrite lookup_alter.
    case_decide; [subst|done].
    destruct (heap w !! h') as [[| |ch|ms]|]; simpl; try done.
    apply list_lookup_alter_ne. congruence. }
  destruct m; [apply Hre|apply Hre|].
  unfold path_at. by rewrite (proj1 (proj2 (clicked_frame this w))).
Qed.

(** ** The two callbacks do not disturb each other *)

Lemma list_bind_ext_in {A B} (f g : A → list B) (l : list A) :
  (∀ x, x ∈ l → f x = g x) → l ≫= f = l ≫= g.
Proof.
  induction l as [|x l IH]; intros Hfg; [done|].
  rewrite !bind_cons, (Hfg x) by apply list_elem_of_here.
  rewrite IH; [done|]. intros y Hy. apply Hfg. by apply list_elem_of_further.
Qed.

Lemma visible_features_ext w w' :
  polygon_layers_on_map w' = polygon_layers_on_map w →
  (∀ h, h ∈ polygon_layers_on_map w → heap w' !! h = heap w !! h) →
  visible_features w' = visible_features w.
Proof.
  intros Hset Hheap. unfold visible_features. rewrite Hset.
  apply list_bind_ext_in. intros h Hh%elem_of_elements. by rewrite Hheap.
Qed.

Lemma polygons_after_points w data :
  wf w → slots_ok w →
  polygon_layers_on_map (step w (PointSheet data)) = polygon_layers_on_map w
  ∧ visible_features (step w (PointSheet data)) = visible_features w
  ∧ slot_features (step w (PointSheet data)) = slot_features w.
Proof.
  intros Hw [Hp Hg]. rewrite step_PointSheet, addPoints_run.
  match goal with |- context [snd (_, ?x)] => set (w' := x) end. simpl.
  assert (∀ h, h < lastId w → heap w' !! h = heap w !! h) as Hold.
  { intros h Hlt. simpl. apply lookup_insert_ne. lia. }
  assert (polygon_layers_on_map w' = polygon_layers_on_map w) as Hset.
  { apply set_eq. intros h. unfold polygon_layers_on_map, is_polygon_layer.
    rewrite !elem_of_filter. simpl. split.
    - intros [[ch Hch] [->%elem_of_singleton|[Hin _]%elem_of_detach]%elem_of_union].
      + by rewrite lookup_insert_eq in Hch.
      + rewrite lookup_insert_ne in Hch by (pose proof (wf_map w Hw h Hin); lia).
        split; [by exists ch|done].
    - intros [[ch Hch] Hin]. pose proof (wf_map w Hw h Hin) as Hlt. split.
      + exists ch. by rewrite lookup_insert_ne by lia.
      + apply elem_of_union_r, elem_of_detach. split; [done|].
        intros [ms Hms]%Hg. congruence. }
  split; [done|]. split.
  - apply visible_features_ext; [done|].
    intros h [_ Hin]%elem_of_filter. apply Hold. by apply (wf_map w Hw).
  - unfold slot_features. simpl. destruct (polygonLayer w) as [h|] eqn:Eh; [|done].
    destruct (Hp h eq_refl) as [ch Hch].
    rewrite lookup_insert_ne; [done|].
    pose proof (wf_heap w Hw h (mk_is_Some _ _ Hch)). lia.
Qed.

Lemma points_after_polygons w data :
  wf w → slots_ok w →
  point_groups_on_map (step w (PolygonSheet data)) = point_groups_on_map w
  ∧ group_markers (step w (PolygonSheet data)) = group_markers w.
Proof.
  intros Hw [Hp Hg]. rewrite step_PolygonSheet, addPolygons_run.
  assert (∀ h, pointGroupLayer w = Some h → h < lastId w) as Hslot.
  { intros h [ms Hms]%Hg. apply (wf_heap w Hw). by eexists. }
  assert (∀ h, h ∈ on_map w → is_point_group w h → polygonLayer w ≠ Some h) as Hkind.
  { intros h _ [ms Hms] [ch Hch]%Hp. congruence. }
  destruct (collection data) as [fs|e]; simpl; split.
  - apply set_eq. intros h. unfold point_groups_on_map, is_point_group.
    rewrite !elem_of_filter. simpl. split.
    + intros [[ms Hms] [->%elem_of_singleton|[Hin _]%elem_of_detach]%elem_of_union].
      * by rewrite lookup_insert_eq in Hms.
      * rewrite lookup_insert_ne in Hms by (pose proof (wf_map w Hw h Hin); lia).
        split; [by exists ms|done].
    + intros [[ms Hms] Hin]. pose proof (wf_map w Hw h Hin) as Hlt. split.
      * exists ms. by rewrite lookup_insert_ne by lia.
      * apply elem_of_union_r, elem_of_detach. split; [done|].
        apply Hkind; [done|by exists ms].
  - unfold group_markers. simpl. destruct (pointGroupLayer w) as [g|] eqn:Eg; [|done].
    rewrite lookup_insert_ne; [done|]. specialize (Hslot g eq_refl). lia.
  - apply set_eq. intros h. unfold point_groups_on_map, is_point_group.
    rewrite !elem_of_filter. simpl. rewrite elem_of_detach. split.
    + by intros [Hk [Hin _]].
    + intros [Hk Hin]. split; [done|]. split; [done|]. by apply Hkind.
  - done.
Qed.

Lemma visible_after_polygons w data :
  wf w →
  visible_features (step w (PolygonSheet data))
  = match collection data with
    | Normal fs => fs
    | Throw _ => []
    end.
Proof.
  intros Hw. destruct (collection data) as [fs|e] eqn:E.
  - by apply addPolygons_installs.
  - unfold visible_features.
    rewrite (proj2 (addPolygons_throw_clears w data e Hw E)).
    by rewrite elements_empty.
Qed.

(** X9. The two callbacks do not disturb each other.  A point sheet leaves
    the polygon layer on the map with the features it showed; a polygon
    sheet, whether it completes or aborts, leaves the point group with its
    markers.  So the two sheets may arrive in either order: the features and
    the markers shown in the end are the same. *)
Theorem callbacks_independent (evs : list event) (polygons points : list Row) :
  let w := run evs page_loaded in
  polygon_layers_on_map (step w (PointSheet points)) = polygon_layers_on_map w
  ∧ visible_features (step w (PointSheet points)) = visible_features w
  ∧ slot_features (step w (PointSheet points)) = slot_features w
  ∧ point_groups_on_map (step w (PolygonSheet polygons)) = point_groups_on_map w
  ∧ group_markers (step w (PolygonSheet polygons)) = group_markers w
  ∧ visible_features (run [PolygonSheet polygons; PointSheet points] w)
    = visible_features (run [PointSheet points; PolygonSheet polygons] w)
  ∧ group_markers (run [PolygonSheet polygons; PointSheet points] w)
    = group_markers (run [PointSheet points; PolygonSheet polygons] w).
Proof.
  intros w.
  pose proof (wf_reachable evs) as Hw. pose proof (slots_ok_reachable evs) as Hs.
  fold w in Hw, Hs.
  destruct (polygons_after_points w points Hw Hs) as (H1 & H2 & H3).
  destruct (points_after_polygons w polygons Hw Hs) as (H4 & H5).
  do 5 (split; [done|]). simpl. split.
  - rewrite (proj1 (proj2 (polygons_after_points _ points
               (wf_step w (PolygonSheet polygons) Hw)
               (slots_ok_step w (PolygonSheet polygons) Hw Hs)))).
    by rewrite !visible_after_polygons by auto using wf_step.
  - rewrite group_markers_addPoints.
    rewrite (proj2 (points_after_polygons _ polygons
               (wf_step w (PointSheet points) Hw)
               (slots_ok_step w (PointSheet points) Hw Hs))).
    by rewrite group_markers_addPoints.
Qed.

(** ** What the panel can show *)

(** X10. A click on a shown path always opens the panel.  It writes the
    title only when the feature has a [type] and the body only when it has a
    [myinfo]; a text the feature lacks stays what the panel showed before, so
    the panel can pair one feature's title with another's body. *)
Theorem click_shows_present_properties
    (w : World) (h : handle) (i : nat) (this : PathLayer) :
  h ∈ on_map w →
  path_at w h i = Some this →
  let w' := step w (OnFeature Press h i) in
  panel_open w' = Some panelID
  ∧ sidebar_title w' = shown_text (sidebar_title w) (p_type (f_properties (feature this)))
  ∧ sidebar_content w'
    = shown_text (sidebar_content w) (p_myinfo (f_properties (feature this))).
Proof.
  intros Hin Hthis w'. unfold w'.
  rewrite step_OnFeature, decide_True, Hthis by done.
  unfold clicked, written, shown_text.
  by destruct (p_type _), (p_myinfo _).
Qed.

Lemma step_path_feature w ev h i p :
  wf w → path_at w h i = Some p →
  ∃ p', path_at (step w ev) h i = Some p' ∧ feature p' = feature p.
Proof.
  intros Hw. unfold path_at.
  destruct (heap w !! h) as [[| |ch|ms]|] eqn:Eh; try done. intros Hp.
  destruct (step_heap w ev h _ Hw Eh) as (l' & -> & Hsame).
  destruct l' as [| |ch'|ms']; simpl in Hsame; try done.
  pose proof (f_equal (λ l, l !! i) Hsame) as Hi. simpl in Hi.
  rewrite !list_lookup_fmap, Hp in Hi. simpl in Hi.
  destruct (ch' !! i) as [p'|]; [|done]. exists p'. split; [done|].
  simpl in Hi. congruence.
Qed.

Lemma step_texts w ev :
  (panel_open (step w ev) = panel_open w
   ∨ panel_open (step w ev) = None
   ∨ panel_open (step w ev) = Some panelID)
  ∧ (sidebar_title (step w ev) = sidebar_title w
     ∨ ∃ h i p, path_at w h i = Some p
                ∧ p_type (f_properties (feature p)) = Some (sidebar_title (step w ev)))
  ∧ (sidebar_content (step w ev) = sidebar_content w
     ∨ ∃ h i p, path_at w h i = Some p
                ∧ p_myinfo (f_properties (feature p)) = Some (sidebar_content (step w ev))).
Proof.
  destruct ev as [data|data| | |m h i].
  - rewrite step_PolygonSheet, addPolygons_run.
    destruct (collection data); simpl; auto.
  - rewrite step_PointSheet, addPoints_run. simpl. auto.
  - simpl. auto.
  - rewrite step_MapClick. simpl. auto.
  - rewrite step_OnFeature. case_decide; [|auto].
    destruct (path_at w h i) as [this|] eqn:Ethis; [|auto].
    destruct m; simpl; auto.
    unfold clicked, written. split; [auto|].
    destruct (p_type _) eqn:Et, (p_myinfo _) eqn:Em; simpl; split; eauto 10.
Qed.

(** X11. The panel never shows a text of its own making.  Whatever has
    happened, it is collapsed or open on the panel [my-info-panel]; its title
    is the initial one or the [type] of a feature of some polygon layer made
    so far, and its body is empty or the [myinfo] of such a feature. *)
Theorem panel_text_provenance (evs : list event) :
  let w := run evs page_loaded in
  (panel_open w = None ∨ panel_open w = Some panelID)
  ∧ (sidebar_title w = " No item selected"
     ∨ ∃ h i p, path_at w h i = Some p
                ∧ p_type (f_properties (feature p)) = Some (sidebar_title w))
  ∧ (sidebar_content w = ""
     ∨ ∃ h i p, path_at w h i = Some p
                ∧ p_myinfo (f_properties (feature p)) = Some (sidebar_content w)).
Proof.
  induction evs as [|ev evs IH] using rev_ind; [simpl; auto|].
  rewrite run_snoc. set (w := run evs page_loaded) in *.
  assert (wf w) as Hw by apply wf_reachable.
  simpl in IH. destruct IH as (Ho & Ht & Hc).
  destruct (step_texts w ev) as (Ho' & Ht' & Hc').
  split; [|split].
  - destruct Ho' as [->|[->| ->]]; auto.
  - destruct Ht' as [->|(h & i & p & Hp & Hty)].
    + destruct Ht as [Ht|(h & i & p & Hp & Hty)]; [by left|right].
      destruct (step_path_feature w ev h i p Hw Hp) as (p' & Hp' & Hf).
      exists h, i, p'. by rewrite Hf.
    + right. destruct (step_path_feature w ev h i p Hw Hp) as (p' & Hp' & Hf).
      exists h, i, p'. by rewrite Hf.
  - destruct Hc' as [->|(h & i & p & Hp & Hty)].
    + destruct Hc as [Hc|(h & i & p & Hp & Hty)]; [by left|right].
      destruct (step_path_feature w ev h i p Hw Hp) as (p' & Hp' & Hf).
      exists h, i, p'. by rewrite Hf.
    + right. destruct (step_path_feature w ev h i p Hw Hp) as (p' & Hp' & Hf).
      exists h, i, p'. by rewrite Hf.
Qed.

End Script.

(** * Examples *)

(** The statements above, at concrete sheets and with the sample Leaflet. *)
#[local] Existing Instance sheet_leaflet.




Lemma addPolygons_feature_fields_witness :
  polygon_row path_row [] =
    Normal ([] ++
      [ {| f_type := "Feature";
           f_geometry := {| g_type := path_row !! "geotype";
                            g_coordinates := JArr [JArr [JNum 5; JNum 6]; JArr [JNum 7; JNum 8]] |};
           f_properties := {| p_Title := path_row !! "Title"; p_type := path_row !! "Type";
                              p_file_num := path_row !! "file_num";
                              p_myinfo := path_row !! "myinfo" |} |} ])
  ∧ slot_features (step page_loaded (PolygonSheet [path_row]))
    = Some [ {| f_type := "Feature";
                f_geometry := {| g_type := path_row !! "geotype";
                                 g_coordinates := JArr [JArr [JNum 5; JNum 6]; JArr [JNum 7; JNum 8]] |};
                f_properties := {| p_Title := path_row !! "Title"; p_type := path_row !! "Type";
                                   p_file_num := path_row !! "file_num";
                                   p_myinfo := path_row !! "myinfo" |} |} ].
Proof.
  destruct (addPolygons_feature_fields path_row []
              (JArr [JArr [JNum 5; JNum 6]; JArr [JNum 7; JNum 8]]))
    as (Hrow & Hsheet & _).
  - vm_compute. reflexivity.
  - vm_compute. reflexivity.
  - split; [exact Hrow|]. apply Hsheet. vm_compute. reflexivity.
Defined.

Lemma addPolygons_malformed_geometry_aborts_witness :
  let w := run [PolygonSheet [road_row]] page_loaded in
  ∃ e, polygon_rows [path_row; broken_row] [] = Throw e
       ∧ addPolygons [path_row; broken_row] w
         = (Throw e, set_on_map (detach (polygonLayer w)) w)
       ∧ lastId (step w (PolygonSheet [path_row; broken_row])) = lastId w
       ∧ heap (step w (PolygonSheet [path_row; broken_row])) = heap w
       ∧ on_map (step w (PolygonSheet [path_row; broken_row]))
         = detach (polygonLayer w) (on_map w)
       ∧ polygon_layers_on_map (step w (PolygonSheet [path_row; broken_row])) = ∅.
Proof.
  apply (addPolygons_malformed_geometry_aborts
           [PolygonSheet [road_row]] [path_row; broken_row] broken_row).
  - apply list_elem_of_further, list_elem_of_here.
  - vm_compute. reflexivity.
  - vm_compute. reflexivity.
Defined.

Lemma failed_addPolygons_keeps_slot_witness :
  let w := run [PolygonSheet [road_row]] page_loaded in
  let w1 := step w (PolygonSheet [path_row; broken_row]) in
  let w2 := step w1 (PolygonSheet [path_row]) in
  polygonLayer w1 = Some 1
  ∧ (1 ∉ on_map w1)
  ∧ lastId w1 = lastId w
  ∧ polygonLayer w2 = Some (lastId w)
  ∧ lastId w ≠ 1
  ∧ on_map w2 = {[lastId w]} ∪ (on_map w ∖ {[1]})
  ∧ polygon_layers_on_map w2 = {[lastId w]}
  ∧ visible_features w2 = [row_feature path_row (JArr [JArr [JNum 5; JNum 6]; JArr [JNum 7; JNum 8]])]
  ∧ slot_features w2 = Some [row_feature path_row (JArr [JArr [JNum 5; JNum 6]; JArr [JNum 7; JNum 8]])].
Proof.
  apply (failed_addPolygons_keeps_slot
           [PolygonSheet [road_row]] [path_row; broken_row] [path_row] broken_row 1).
  - apply list_elem_of_further, list_elem_of_here.
  - vm_compute. reflexivity.
  - vm_compute. reflexivity.
  - vm_compute. reflexivity.
  - vm_compute. reflexivity.
  - vm_compute. reflexivity.
Defined.

Lemma one_layer_per_kind_witness :
  let w := run [PointSheet [flag_row]; PolygonSheet [road_row; path_row]] page_loaded in
  (size (polygon_layers_on_map w) ≤ 1)%nat
  ∧ (size (point_groups_on_map w) ≤ 1)%nat
  ∧ polygon_layers_on_map (step w (PolygonSheet [road_row])) ⊆ {[lastId w]}
  ∧ point_groups_on_map (step w (PointSheet [flag_row])) = {[lastId w]}
  ∧ (lastId w ∉ on_map w)
  ∧ on_map (step w (PolygonSheet [upper_row; path_row]))
    = {[lastId w]} ∪ detach (polygonLayer w) (on_map w)
  ∧ on_map (step w (PointSheet [flag_row]))
    = {[lastId w]} ∪ detach (pointGroupLayer w) (on_map w)
  ∧ polygon_layers_on_map (step w (PolygonSheet [upper_row; path_row])) = {[lastId w]}
  ∧ visible_features (run [PolygonSheet [road_row]; PolygonSheet [upper_row; path_row]] w)
    = [row_feature path_row (JArr [JArr [JNum 5; JNum 6]; JArr [JNum 7; JNum 8]])]
  ∧ pointGroupLayer (step w (PolygonSheet [road_row])) = pointGroupLayer w
  ∧ polygonLayer (step w (PointSheet [flag_row])) = polygonLayer w.
Proof.
  apply (one_layer_per_kind
           [PointSheet [flag_row]; PolygonSheet [road_row; path_row]]
           [road_row] [upper_row; path_row] [flag_row]).
  - vm_compute. reflexivity.
  - vm_compute. reflexivity.
Defined.

(** C6, as stated, fails: not every row gets a marker, and a position that
    is no number does not reach the map.  The second row of this sheet has
    the text north for [lat], which is no number; [L.marker] throws on it,
    the call is abandoned, and the group holds one marker for three rows. *)
Lemma bad_position_stops_addPoints :
  let data := [flag_row; <["lat" := "north"]> flag_row; flag_row] in
  fst (addPoints data page_loaded) = Throw LeafletError
  ∧ length data = 3
  ∧ length (group_markers (step page_loaded (PointSheet data))) = 1
  ∧ map m_latlng (group_markers (step page_loaded (PointSheet data)))
    = [(Some "30.1", Some "-90.2")].
Proof. vm_compute. repeat split; reflexivity. Qed.

Lemma addPoints_markers_witness :
  (let w' := step page_loaded
               (PointSheet ([flag_row; delete "Title" flag_row]
                            ++ [<["lat" := "north"]> flag_row; flag_row])) in
   pointGroupLayer w' = Some (lastId page_loaded)
   ∧ lastId page_loaded ∈ on_map w'
   ∧ length (group_markers w') = length [flag_row; delete "Title" flag_row]
   ∧ map m_popup (group_markers w')
     = [Some "<h2>Bridge</h2><br>Bayou crossing<br>open";
        Some "<h2>Bridge</h2><br>undefined<br>open"]
   ∧ fst (addPoints ([flag_row; delete "Title" flag_row]
                     ++ [<["lat" := "north"]> flag_row; flag_row]) page_loaded)
     = Throw LeafletError)
  ∧ ∃ m ic, group_markers (step page_loaded (PointSheet [flag_row])) = [m]
            ∧ m_latlng m = (Some "30.1", Some "-90.2")
            ∧ m_icon m = Some ic
            ∧ icon ic = Some "flag"
            ∧ markerColor ic = Some "red"
            ∧ prefix ic = "fa".
Proof.
  destruct (addPoints_markers [flag_row; delete "Title" flag_row]
              [<["lat" := "north"]> flag_row; flag_row] page_loaded)
    as (Hslot & Hmap & Hlen & Hms & _ & Hthrow & Hex).
  - repeat constructor.
  - vm_compute. reflexivity.
  - split.
    + split; [exact Hslot|]. split; [exact Hmap|]. split; [exact Hlen|].
      split; [by rewrite Hms|]. by apply Hthrow.
    + destruct (Hex flag_row) as (m & ic & Hm & Hrest); [vm_compute; reflexivity|].
      exists m, ic. split; [|exact Hrest]. rewrite <- Hm. vm_compute. reflexivity.
Defined.

(** C3, as stated, fails: after a feature was clicked, a click on the map
    closes the panel but the title and the body still show the feature's
    texts; they are neither emptied nor set back to the initial title. *)
Lemma map_click_leaves_panel_text :
  let w := run [PolygonSheet [road_row]; OnFeature Press 1 0] page_loaded in
  panel_open w = Some panelID
  ∧ sidebar_title w = "Road"
  ∧ sidebar_content w = "repaving"
  ∧ panel_open (step w MapClick) = None
  ∧ sidebar_title (step w MapClick) = "Road"
  ∧ sidebar_content (step w MapClick) = "repaving"
  ∧ sidebar_title (step w MapClick) ≠ ""
  ∧ sidebar_title (step w MapClick) ≠ sidebar_title page_loaded
  ∧ sidebar_content (step w MapClick) ≠ "".
Proof. vm_compute. repeat split; discriminate. Qed.

Lemma panel_click_behaviour_witness :
  let w := run [PolygonSheet [path_row; road_row]] page_loaded in
  let this := new_path (row_feature road_row (JArr [JArr [JNum 1; JNum 2]; JArr [JNum 3; JNum 4]])) in
  click this {| target := (1, 1); stopped := false |} w
    = (Normal {| target := (1, 1); stopped := true |}, step w (OnFeature Press 1 1))
  ∧ panel_open (step w (OnFeature Press 1 1)) = Some panelID
  ∧ sidebar_title (step w (OnFeature Press 1 1)) = "Road"
  ∧ sidebar_content (step w (OnFeature Press 1 1)) = "repaving"
  ∧ step w MapClick = set_panel_open None w
  ∧ panel_open (step w MapClick) = None
  ∧ sidebar_title (step w MapClick) = sidebar_title w
  ∧ sidebar_content (step w MapClick) = sidebar_content w.
Proof.
  apply (panel_click_behaviour
           (run [PolygonSheet [path_row; road_row]] page_loaded) 1 1
           (new_path (row_feature road_row (JArr [JArr [JNum 1; JNum 2]; JArr [JNum 3; JNum 4]])))
           "Road" "repaving").
  - vm_compute. reflexivity.
  - vm_compute. reflexivity.
  - vm_compute. reflexivity.
  - vm_compute. reflexivity.
Defined.

Lemma hover_styles_witness :
  let w := run [PolygonSheet [road_row; path_row]; OnFeature Over 1 1] page_loaded in
  let this := setStyle polygonHoverStyle
                (new_path (row_feature path_row (JArr [JArr [JNum 5; JNum 6]; JArr [JNum 7; JNum 8]]))) in
  path_at (step w (OnFeature Out 1 1)) 1 1
    = Some {| feature := feature this; options := polygonStyle |}
  ∧ path_at (step w (OnFeature Over 1 1)) 1 1
    = Some {| feature := feature this; options := polygonHoverStyle |}
  ∧ polygonStyle
    = list_to_map [("color", SStr "#2ca25f"); ("fillColor", SStr "#99d8c9");
                   ("weight", SNum 2)]
  ∧ polygonHoverStyle
    = list_to_map [("color", SStr "green"); ("fillColor", SStr "#2ca25f");
                   ("weight", SNum 4)]
  ∧ step (step w (hover_event 1 1 false)) (hover_event 1 1 false)
    = step w (hover_event 1 1 false)
  ∧ run (map (hover_event 1 1) ([true; false; true; true] ++ [false])) w
    = step w (hover_event 1 1 false)
  ∧ path_at (run (map (hover_event 1 1) ([true; false; true; true] ++ [false])) w) 1 1
    = Some {| feature := feature this; options := hover_style false |}.
Proof.
  apply (hover_styles [PolygonSheet [road_row; path_row]; OnFeature Over 1 1] 1 1
           (setStyle polygonHoverStyle
              (new_path (row_feature path_row (JArr [JArr [JNum 5; JNum 6]; JArr [JNum 7; JNum 8]]))))
           [true; false; true; true] false).
  - vm_compute. reflexivity.
  - vm_compute. reflexivity.
Defined.

Lemma addPolygons_completes_iff_witness :
  ∃ w', addPolygons [<["geometry" := "not json"]> upper_row; road_row] page_loaded
        = (Normal tt, w').
Proof.
  apply (addPolygons_completes_iff
           [<["geometry" := "not json"]> upper_row; road_row] page_loaded).
  constructor; [intros Hy; vm_compute in Hy; discriminate|].
  constructor; [|constructor]. intros _.
  exists (JArr [JArr [JNum 1; JNum 2]; JArr [JNum 3; JNum 4]]).
  split; vm_compute; reflexivity.
Defined.

Lemma addPolygons_missing_geometry_aborts_witness :
  ∃ e, addPolygons [road_row; delete "geometry" path_row] page_loaded
       = (Throw e, set_on_map (detach (polygonLayer page_loaded)) page_loaded)
       ∧ polygon_rows [road_row; delete "geometry" path_row] [] = Throw e.
Proof.
  apply (addPolygons_missing_geometry_aborts
           [road_row; delete "geometry" path_row] (delete "geometry" path_row) page_loaded).
  - apply list_elem_of_further, list_elem_of_here.
  - vm_compute. reflexivity.
  - left. vm_compute. reflexivity.
Defined.

Lemma addPolygons_nothing_included_witness :
  let w := run [PolygonSheet [road_row]] page_loaded in
  let w' := step w (PolygonSheet [upper_row; <["geometry" := "not json"]> bare_row]) in
  polygonLayer w' = Some (lastId w)
  ∧ heap w' !! lastId w = Some (GeoJSON [])
  ∧ polygon_layers_on_map w' = {[lastId w]}
  ∧ slot_features w' = Some []
  ∧ visible_features w' = [].
Proof.
  apply (addPolygons_nothing_included [PolygonSheet [road_row]]
           [upper_row; <["geometry" := "not json"]> bare_row]).
  repeat constructor; vm_compute; discriminate.
Defined.

Lemma addPoints_rejected_position_witness :
  let w := run [PointSheet [flag_row; flag_row]] page_loaded in
  let w' := step w (PointSheet ([flag_row] ++ delete "lat" flag_row :: [flag_row])) in
  addPoints ([flag_row] ++ delete "lat" flag_row :: [flag_row]) w = (Throw LeafletError, w')
  ∧ pointGroupLayer w' = Some (lastId w)
  ∧ on_map w' = {[lastId w]} ∪ detach (pointGroupLayer w) (on_map w)
  ∧ point_groups_on_map w' = {[lastId w]}
  ∧ group_markers w' = group_markers (step w (PointSheet [flag_row]))
  ∧ length (group_markers w') = length [flag_row].
Proof.
  apply (addPoints_rejected_position [PointSheet [flag_row; flag_row]]
           [flag_row] [flag_row] (delete "lat" flag_row)).
  - repeat constructor.
  - vm_compute. reflexivity.
Defined.

Lemma layer_contents_persist_witness :
  ∃ l', heap (run ([PolygonSheet [road_row; path_row]]
                   ++ [OnFeature Over 1 0; PointSheet [flag_row]; PolygonSheet [path_row]])
                  page_loaded) !! 1 = Some l'
        ∧ same_layer (GeoJSON (map new_path
                         [row_feature road_row (JArr [JArr [JNum 1; JNum 2]; JArr [JNum 3; JNum 4]]);
                          row_feature path_row (JArr [JArr [JNum 5; JNum 6]; JArr [JNum 7; JNum 8]])])) l'
        ∧ (∀ ch, GeoJSON (map new_path
                   [row_feature road_row (JArr [JArr [JNum 1; JNum 2]; JArr [JNum 3; JNum 4]]);
                    row_feature path_row (JArr [JArr [JNum 5; JNum 6]; JArr [JNum 7; JNum 8]])])
                 = GeoJSON ch →
                 ∃ ch', l' = GeoJSON ch' ∧ map feature ch' = map feature ch)
        ∧ (∀ ms, GeoJSON (map new_path
                   [row_feature road_row (JArr [JArr [JNum 1; JNum 2]; JArr [JNum 3; JNum 4]]);
                    row_feature path_row (JArr [JArr [JNum 5; JNum 6]; JArr [JNum 7; JNum 8]])])
                 = LayerGroup ms → l' = LayerGroup ms).
Proof.
  apply (layer_contents_persist [PolygonSheet [road_row; path_row]]
           [OnFeature Over 1 0; PointSheet [flag_row]; PolygonSheet [path_row]] 1).
  vm_compute. reflexivity.
Defined.

Lemma static_layers_stay_witness :
  2 ∈ on_map (run ([PolygonSheet [road_row]; BoundaryFile]
                   ++ [PolygonSheet [broken_row]; PointSheet [flag_row]; MapClick])
                  page_loaded)
  ∧ heap (run ([PolygonSheet [road_row]; BoundaryFile]
               ++ [PolygonSheet [broken_row]; PointSheet [flag_row]; MapClick])
              page_loaded) !! 2 = Some Boundary
  ∧ 0 ∈ on_map (run ([PolygonSheet [road_row]; BoundaryFile]
                     ++ [PolygonSheet [broken_row]; PointSheet [flag_row]; MapClick])
                    page_loaded)
  ∧ heap (run ([PolygonSheet [road_row]; BoundaryFile]
               ++ [PolygonSheet [broken_row]; PointSheet [flag_row]; MapClick])
              page_loaded) !! 0 = Some TileLayer.
Proof.
  apply (static_layers_stay [PolygonSheet [road_row]; BoundaryFile]
           [PolygonSheet [broken_row]; PointSheet [flag_row]; MapClick] 2 Boundary).
  - vm_compute. reflexivity.
  - reflexivity.
  - vm_compute. reflexivity.
Defined.

Lemma other_paths_untouched_witness :
  path_at (step (run [PolygonSheet [road_row; path_row]] page_loaded)
                (OnFeature Over 1 0)) 1 1
  = path_at (run [PolygonSheet [road_row; path_row]] page_loaded) 1 1.
Proof.
  apply (other_paths_untouched
           (run [PolygonSheet [road_row; path_row]] page_loaded) Over 1 1 0 1).
  discriminate.
Defined.

Lemma click_shows_present_properties_witness :
  let w := run [PolygonSheet [road_row; delete "Type" path_row]; OnFeature Press 1 0]
               page_loaded in
  let this := new_path (row_feature (delete "Type" path_row)
                          (JArr [JArr [JNum 5; JNum 6]; JArr [JNum 7; JNum 8]])) in
  (let w' := step w (OnFeature Press 1 1) in
   panel_open w' = Some panelID
   ∧ sidebar_title w' = shown_text (sidebar_title w) (p_type (f_properties (feature this)))
   ∧ sidebar_content w'
     = shown_text (sidebar_content w) (p_myinfo (f_properties (feature this))))
  ∧ sidebar_title (step w (OnFeature Press 1 1)) = "Road"
  ∧ sidebar_content (step w (OnFeature Press 1 1)) = "new trail".
Proof.
  split.
  - apply (click_shows_present_properties
             (run [PolygonSheet [road_row; delete "Type" path_row]; OnFeature Press 1 0]
                  page_loaded) 1 1
             (new_path (row_feature (delete "Type" path_row)
                          (JArr [JArr [JNum 5; JNum 6]; JArr [JNum 7; JNum 8]])))).
    + vm_compute. reflexivity.
    + vm_compute. reflexivity.
  - vm_compute. split; reflexivity.
Defined.
